(** * VoxelGraphRuntime: a shallow embedding of the graph VM's header

    The development follows [src/generators/graph/voxel_graph_runtime.h]
    (the CPU virtual machine that runs a compiled voxel graph) and the
    singleton of [VoxelStringNames].

    Conventions.
    - [std::vector<T>] is a [list T]; [v.size()] is [length v]; [v[i]] is the
      stdpp lookup [v !! i], and an index past the end is undefined behaviour,
      reported as [Undefined].
    - [CRASH_COND(c)] aborts the process when [c] holds: the outcome [Crash].
    - [float] is kept abstract: nothing below computes with floating point
      numbers, the code only stores and compares them.
    - [size_t] and [uint16_t] indices are natural numbers (the code does no
      arithmetic on them); [unsigned int] counters that the code decrements
      are integers with the 32 bit wrap-around written out.
    - A routine registered by function pointer (compile, execute, range
      analysis) is the tree of the calls it makes on its context; the
      execute routines of the catalog may also write through the references
      that [get_input] and [get_output] return.
    - [compile], [generate_single], [analyze_range] and [unlock_images] are
      declared in the header and defined in a file that is not part of the
      sources; their definitions here say so. *)

From stdpp Require Import base numbers list gmap strings.
From Stdlib Require Import Strings.Byte.

Set Default Proof Using "Type".

(* ===================================================================== *)
(** * Part I. Definitions *)
(* ===================================================================== *)

(** ** Outcomes of a call *)

Inductive Outcome (A : Type) : Type :=
| Ok (a : A)      (* the call returns [a] *)
| Crash           (* a CRASH_COND fired: the process is aborted *)
| Undefined.      (* undefined behaviour, e.g. reading a vector past its end *)
Arguments Ok {A} a.
Arguments Crash {A}.
Arguments Undefined {A}.

(** Sequencing: the first abort or undefined step ends the call. The stdpp
    notations [x ← m; k] and [m;; k] are used for it. *)
Global Instance Outcome_ret : MRet Outcome := λ A a, Ok a.
Global Instance Outcome_bind : MBind Outcome := λ A B f m,
  match m with
  | Ok a => f a
  | Crash => Crash
  | Undefined => Undefined
  end.

(** [v[i]] on a [std::vector]: no bounds check. *)
Definition vector_at {A} (v : list A) (i : nat) : Outcome A :=
  match v !! i with
  | Some x => Ok x
  | None => Undefined
  end.

(** [CRASH_COND(c)] *)
Definition CRASH_COND (c : bool) : Outcome unit :=
  if c then Crash else Ok tt.

(** ** Plain data of the header *)

(** [struct CompilationResult] *)
Record CompilationResult := {
  success : bool;
  node_id : Z;
  message : string;
}.

(** [CompilationResult()]: the default member initialisers. *)
Definition CompilationResult_default : CompilationResult :=
  {| success := false; node_id := (-1)%Z; message := "" |}.

(** [struct HeapResource]. [ptr] is a [void *], with [0] for [nullptr];
    [deleter] is a function pointer, [None] for [nullptr]. The only deleters
    the header creates are the lambdas of [add_memdelete_cleanup<T>], one per
    type [T]; [memdelete_of T] names it. *)
Inductive Deleter := memdelete_of (T : string).

Record HeapResource := {
  ptr : N;
  deleter : option Deleter;
}.

(** ** CompileContext *)

Module CompileContext.
Section Defs.
Context {Node Variant : Type}.

(** The three references [_program], [_heap_resources] and [_params] are
    held by value here; whoever builds the context writes them back (see
    [Compiler.compile_node]). *)
Record t := mk {
  _node : Node;
  _offset : nat;
  _program : list byte;
  _heap_resources : list HeapResource;
  _params : list Variant;
  _error_message : string;
  _has_error : bool;
}.

(** The constructor records the current end of the program stream. *)
Definition new (node : Node) (program : list byte)
    (heap_resources : list HeapResource) (params : list Variant) : t :=
  {| _node := node;
     _offset := length program;
     _program := program;
     _heap_resources := heap_resources;
     _params := params;
     _error_message := "";
     _has_error := false |}.

(** [Variant get_param(size_t i) const] *)
Definition get_param (c : t) (i : nat) : Outcome Variant :=
  CRASH_COND (length (_params c) <? i);;
  vector_at (_params c) i.

(** Storing a [T] at [&v[off]]: the [sizeof(T)] bytes from [off] on are
    overwritten. *)
Definition store_at (off : nat) (blob : list byte) (v : list byte) : list byte :=
  take off v ++ blob ++ drop (off + length blob) v.

(** [template <typename T> void set_params(T params)]. The argument is the
    object representation of [params], so [length params] is [sizeof(T)];
    [resize] value-initialises the new bytes. *)
Definition set_params (params : list byte) (c : t) : Outcome t :=
  CRASH_COND (negb (_offset c =? length (_program c)));;
  (let resized := _program c ++ replicate (length params) x00 in
   Ok {| _node := _node c;
         _offset := _offset c;
         _program := store_at (_offset c) params resized;
         _heap_resources := _heap_resources c;
         _params := _params c;
         _error_message := _error_message c;
         _has_error := _has_error c |}).

(** [template <typename T> void add_memdelete_cleanup(T *ptr)] *)
Definition add_memdelete_cleanup (T : string) (p : N) (c : t) : t :=
  let hr := {| ptr := p; deleter := Some (memdelete_of T) |} in
  {| _node := _node c;
     _offset := _offset c;
     _program := _program c;
     _heap_resources := _heap_resources c ++ [hr];
     _params := _params c;
     _error_message := _error_message c;
     _has_error := _has_error c |}.

(** [void make_error(String message)] *)
Definition make_error (msg : string) (c : t) : t :=
  {| _node := _node c;
     _offset := _offset c;
     _program := _program c;
     _heap_resources := _heap_resources c;
     _params := _params c;
     _error_message := msg;
     _has_error := true |}.

Definition has_error (c : t) : bool := _has_error c.
Definition get_error_message (c : t) : string := _error_message c.
End Defs.
Arguments t : clear implicits.
End CompileContext.

(** ** Buffers and intervals *)

(** Modelled from the spec: [Interval] ([util/math/interval.h] is not part of
    the sources), "a closed numeric range [min, max]". *)
Record Interval (float : Type) := {
  min : float;
  max : float;
}.
Arguments min {float} _.
Arguments max {float} _.

(** [struct Buffer]. [data] is [None] for [nullptr] and otherwise the array
    the pointer refers to; [local_users_count] is an [unsigned int]. *)
Record Buffer (float : Type) := {
  data : option (list float);
  size : nat;
  capacity : nat;
  constant_value : float;
  is_constant : bool;
  is_binding : bool;
  local_users_count : Z;
}.
Arguments data {float} _.
Arguments size {float} _.
Arguments capacity {float} _.
Arguments constant_value {float} _.
Arguments is_constant {float} _.
Arguments is_binding {float} _.
Arguments local_users_count {float} _.

(** A call of [memfree(b.data)]: the buffer whose array is released, by its
    address in the State, and the array. *)
Record Memfree (float : Type) := {
  freed_address : nat;
  freed_array : list float;
}.
Arguments freed_address {float} _.
Arguments freed_array {float} _.

(** ** State *)

Module State.
Section Defs.
Context {float : Type}.

Record t := {
  ranges : list (Interval float);
  buffers : list (Buffer float);
  execution_map : list nat;
  debug_execution_map : list Z;
  execution_map_xzy_start_index : nat;
  buffer_size : nat;
  buffer_capacity : nat;
}.

(** [const Buffer &get_buffer(uint16_t address) const] *)
Definition get_buffer (s : t) (address : nat) : Outcome (Buffer float) :=
  CRASH_COND (length (buffers s) <=? address);;
  vector_at (buffers s) address.

(** [const Interval get_range(uint16_t address) const] *)
Definition get_range (s : t) (address : nat) : Outcome (Interval float) :=
  CRASH_COND (length (buffers s) <=? address);;
  vector_at (ranges s) address.

(** The loop of [clear]: the calls of [memfree] it makes, in order, for the
    buffers from address [address] on. *)
Fixpoint free_buffers (address : nat) (bs : list (Buffer float)) : list (Memfree float) :=
  match bs with
  | [] => []
  | b :: bs' =>
      match data b with
      | Some arr =>
          if negb (is_binding b)
          then {| freed_address := address; freed_array := arr |}
                 :: free_buffers (S address) bs'
          else free_buffers (S address) bs'
      | None => free_buffers (S address) bs'
      end
  end.

(** [void clear()]: the new state and the calls of [memfree]. The maps of
    the execution order are not touched. *)
Definition clear (s : t) : t * list (Memfree float) :=
  ({| ranges := [];
      buffers := [];
      execution_map := execution_map s;
      debug_execution_map := debug_execution_map s;
      execution_map_xzy_start_index := execution_map_xzy_start_index s;
      buffer_size := 0;
      buffer_capacity := 0 |},
   free_buffers 0 (buffers s)).

(** [ArraySlice<const int> get_debug_execution_map() const] *)
Definition get_debug_execution_map (s : t) : list Z := debug_execution_map s.
End Defs.
Arguments t : clear implicits.
End State.

(** ** Program *)

(** [struct BufferSpec] *)
Record BufferSpec (float : Type) := {
  bs_address : nat;
  bs_users_count : nat;
  bs_constant_value : float;
  bs_is_constant : bool;
  bs_is_binding : bool;
}.
Arguments bs_address {float} _.
Arguments bs_users_count {float} _.
Arguments bs_constant_value {float} _.
Arguments bs_is_constant {float} _.
Arguments bs_is_binding {float} _.

(** [struct DependencyGraph::Node] and [struct DependencyGraph] *)
Record DependencyNode := {
  first_dependency : nat;
  end_dependency : nat;
  op_address : nat;
  is_output : bool;
  debug_node_id : Z;
}.

Record DependencyGraph := {
  dependencies : list nat;
  nodes : list DependencyNode;
}.

Definition DependencyGraph_clear (g : DependencyGraph) : DependencyGraph :=
  {| dependencies := []; nodes := [] |}.

(** [Ref<Reference>]: a counted reference to a resource of the host; the
    host's resource is named by [resource], and [is_image] tells whether a
    cast to [Ref<Image>] succeeds. *)
Record RefResource := {
  resource : N;
  is_image : bool;
}.

(** What [Program::clear] does to the world outside the Program. *)
Inductive Release :=
| Delete (d : Deleter) (p : N)        (* [r.deleter(r.ptr)] *)
| UnlockImage (r : RefResource)       (* the image is unlocked *)
| Unreference (r : RefResource).      (* a [Ref] is dropped *)

(** A resource as [add_memdelete_cleanup] registers it from a pointer that is
    not null: both CRASH_COND of [Program::clear] let it pass. *)
Definition releasable (r : HeapResource) : Prop :=
  ptr r ≠ 0%N ∧ is_Some (deleter r).

(** The deleter call that releases [r]. *)
Definition released_by (r : HeapResource) (e : Release) : Prop :=
  ∃ d, deleter r = Some d ∧ e = Delete d (ptr r).

Module Program.
Section Defs.
Context {float : Type}.

Record t := {
  operations : list byte;
  dependency_graph : DependencyGraph;
  default_execution_map : list nat;
  heap_resources : list HeapResource;
  ref_resources : list RefResource;
  buffer_specs : list (BufferSpec float);
  xzy_start_op_address : nat;
  xzy_start_execution_map_index : nat;
  x_input_address : Z;
  y_input_address : Z;
  z_input_address : Z;
  sdf_output_address : Z;
  sdf_output_node_index : Z;
  buffer_count : nat;
  output_port_addresses : gmap (nat * nat) nat;
  compilation_result : CompilationResult;
}.

(** The member initialisers of [struct Program]. *)
Definition empty : t :=
  {| operations := [];
     dependency_graph := {| dependencies := []; nodes := [] |};
     default_execution_map := [];
     heap_resources := [];
     ref_resources := [];
     buffer_specs := [];
     xzy_start_op_address := 0;
     xzy_start_execution_map_index := 0;
     x_input_address := -1;
     y_input_address := -1;
     z_input_address := -1;
     sdf_output_address := -1;
     sdf_output_node_index := -1;
     buffer_count := 0;
     output_port_addresses := ∅;
     compilation_result := CompilationResult_default |}.

(** The loop of [clear] over [heap_resources]: the deleters called so far,
    and whether one of the two CRASH_COND stopped it. *)
Fixpoint delete_heap_resources (rs : list HeapResource) : list Release * Outcome unit :=
  match rs with
  | [] => ([], Ok tt)
  | r :: rs' =>
      match deleter r with
      | None => ([], Crash)
      | Some d =>
          if (ptr r =? 0)%N then ([], Crash)
          else let '(log, o) := delete_heap_resources rs' in
               (Delete d (ptr r) :: log, o)
      end
  end.

(** Modelled from the spec: [unlock_images] is declared in the header and
    defined elsewhere. The Program holds its lockable lookup resources
    among [ref_resources] and "must release [the lock] when cleared": every
    image it references is unlocked. *)
Definition unlock_images (p : t) : list Release :=
  UnlockImage <$> filter (λ r, is_image r = true) (ref_resources p).

(** [void clear()]. All fields are reset; the log lists the deleters, the
    unlocking of the images and the references dropped by
    [ref_resources.clear()]. *)
Definition clear (p : t) : list Release * Outcome t :=
  let '(deleted, o) := delete_heap_resources (heap_resources p) in
  match o with
  | Ok _ =>
      (deleted ++ unlock_images p ++ (Unreference <$> ref_resources p),
       Ok {| operations := [];
             dependency_graph := DependencyGraph_clear (dependency_graph p);
             default_execution_map := [];
             heap_resources := [];
             ref_resources := [];
             buffer_specs := [];
             xzy_start_op_address := 0;
             xzy_start_execution_map_index := 0;
             x_input_address := -1;
             y_input_address := -1;
             z_input_address := -1;
             sdf_output_address := -1;
             sdf_output_node_index := -1;
             buffer_count := 0;
             output_port_addresses := ∅;
             compilation_result := CompilationResult_default |})
  | Crash => (deleted, Crash)
  | Undefined => (deleted, Undefined)
  end.

(** [VoxelGraphRuntime::has_output] on the runtime's [_program]. *)
Definition has_output (p : t) : bool :=
  negb (sdf_output_address p =? -1)%Z.
End Defs.
Arguments t : clear implicits.
End Program.

(** ** The node graph and the compile routines *)

Module ProgramGraph.
(** Modelled from the spec: [ProgramGraph::Node] ([program_graph.h] is not
    part of the sources). A node exposes "its operation kind" and its
    "literal parameter values"; the graph exposes "a deterministic
    topological traversal order", and is given as the list of its nodes in
    that order. *)
Record Node (Variant : Type) := {
  id : Z;
  type_id : nat;
  params : list Variant;
}.
Arguments id {Variant} _.
Arguments type_id {Variant} _.
Arguments params {Variant} _.
End ProgramGraph.

(** The type [CompileFunc] of pointers to functions from [CompileContext &]
    to [void]. A compile routine can
    reach the context through its public methods only; it is the tree of the
    calls it makes, each continuation receiving what the call returns. *)
Inductive CompileFunc (Variant : Type) : Type :=
| compile_return
| compile_get_param (i : nat) (k : Variant → CompileFunc Variant)
| compile_set_params (blob : list byte) (k : CompileFunc Variant)
| compile_add_memdelete_cleanup (T : string) (q : N) (k : CompileFunc Variant)
| compile_make_error (msg : string) (k : CompileFunc Variant)
| compile_has_error (k : bool → CompileFunc Variant).
Arguments compile_return {Variant}.
Arguments compile_get_param {Variant} i k.
Arguments compile_set_params {Variant} blob k.
Arguments compile_add_memdelete_cleanup {Variant} T q k.
Arguments compile_make_error {Variant} msg k.
Arguments compile_has_error {Variant} k.

(** Calling a compile routine on a context. *)
Fixpoint run_compile_func {Node Variant : Type} (f : CompileFunc Variant)
    (c : CompileContext.t Node Variant) : Outcome (CompileContext.t Node Variant) :=
  match f with
  | compile_return => Ok c
  | compile_get_param i k =>
      v ← CompileContext.get_param c i; run_compile_func (k v) c
  | compile_set_params blob k =>
      c' ← CompileContext.set_params blob c; run_compile_func k c'
  | compile_add_memdelete_cleanup T q k =>
      run_compile_func k (CompileContext.add_memdelete_cleanup T q c)
  | compile_make_error msg k =>
      run_compile_func k (CompileContext.make_error msg c)
  | compile_has_error k =>
      run_compile_func (k (CompileContext.has_error c)) c
  end.

(** The routine never hands a null pointer to [add_memdelete_cleanup]. *)
Fixpoint registers_objects {Variant : Type} (f : CompileFunc Variant) : Prop :=
  match f with
  | compile_return => True
  | compile_get_param _ k => ∀ v, registers_objects (k v)
  | compile_set_params _ k => registers_objects k
  | compile_add_memdelete_cleanup _ q k => q ≠ 0%N ∧ registers_objects k
  | compile_make_error _ k => registers_objects k
  | compile_has_error k => ∀ e, registers_objects (k e)
  end.

(** ** The compiler *)

Module Compiler.
Section Defs.
Context {float Variant : Type}.

(** The compile routine registered for each operation kind. *)
Variable compile_func : nat → CompileFunc Variant.

(** The operation stream after the opid and the address lists of a node have
    been appended to it. The layout of buffer addresses is the compiler's
    business and has no part in how errors are reported. *)
Variable emit_operation : ProgramGraph.Node Variant → list byte → list byte.

(** What follows the loop over the nodes: the bindings of X, Y, Z and of the
    output are identified, the dependency graph is built and the order is
    partitioned; a missing or duplicate binding is a compile error. *)
Variable finish :
  list (ProgramGraph.Node Variant) → Program.t float → Program.t float * CompilationResult.

(** Modelled from the spec: the step of [compile] for one node (the function
    is declared in the header and defined elsewhere). The instruction is
    emitted, the compile routine of its kind is called with a context on the
    Program's stream and resource list, and an error it reported gives the
    failed result "with a message and originating node". *)
Definition compile_node (node : ProgramGraph.Node Variant) (p : Program.t float)
    : Outcome (Program.t float * option CompilationResult) :=
  let stream := emit_operation node (Program.operations p) in
  let ctx := CompileContext.new node stream (Program.heap_resources p)
               (ProgramGraph.params node) in
  ctx' ← run_compile_func (compile_func (ProgramGraph.type_id node)) ctx;
  (let p' :=
     {| Program.operations := CompileContext._program ctx';
        Program.dependency_graph := Program.dependency_graph p;
        Program.default_execution_map := Program.default_execution_map p;
        Program.heap_resources := CompileContext._heap_resources ctx';
        Program.ref_resources := Program.ref_resources p;
        Program.buffer_specs := Program.buffer_specs p;
        Program.xzy_start_op_address := Program.xzy_start_op_address p;
        Program.xzy_start_execution_map_index := Program.xzy_start_execution_map_index p;
        Program.x_input_address := Program.x_input_address p;
        Program.y_input_address := Program.y_input_address p;
        Program.z_input_address := Program.z_input_address p;
        Program.sdf_output_address := Program.sdf_output_address p;
        Program.sdf_output_node_index := Program.sdf_output_node_index p;
        Program.buffer_count := Program.buffer_count p;
        Program.output_port_addresses := Program.output_port_addresses p;
        Program.compilation_result := Program.compilation_result p |} in
   if CompileContext.has_error ctx'
   then Ok (p', Some {| success := false;
                        node_id := ProgramGraph.id node;
                        message := CompileContext.get_error_message ctx' |})
   else Ok (p', None)).

(** Modelled from the spec: the loop of [compile] over the nodes "in a
    topologically valid order"; "any per-node compile error aborts
    compilation". *)
Fixpoint compile_nodes (g : list (ProgramGraph.Node Variant)) (p : Program.t float)
    : Outcome (Program.t float * option CompilationResult) :=
  match g with
  | [] => Ok (p, None)
  | node :: g' =>
      r ← compile_node node p;
      match r.2 with
      | Some failure => Ok (r.1, Some failure)
      | None => compile_nodes g' r.1
      end
  end.

(** Modelled from the spec: [_compile], the work of [compile] on a Program
    that has been emptied. *)
Definition _compile (g : list (ProgramGraph.Node Variant)) (p : Program.t float)
    : Outcome (Program.t float * CompilationResult) :=
  r ← compile_nodes g p;
  match r.2 with
  | Some failure => Ok (r.1, failure)
  | None => Ok (finish g r.1)
  end.

(** Modelled from the spec: [compile]. The Program is "replaced wholesale by
    a new compile call"; a failure "leaves the Program cleared, and returns
    the failing node id and message". The log lists what the two calls of
    [Program::clear] release. *)
Definition compile (g : list (ProgramGraph.Node Variant)) (p : Program.t float)
    : list Release * Outcome (CompilationResult * Program.t float) :=
  let '(log0, o0) := Program.clear p in
  match o0 with
  | Ok p0 =>
      match _compile g p0 with
      | Ok (p1, result) =>
          if success result then (log0, Ok (result, p1))
          else
            let '(log1, o1) := Program.clear p1 in
            (log0 ++ log1,
             match o1 with
             | Ok p2 => Ok (result, p2)
             | Crash => Crash
             | Undefined => Undefined
             end)
      | Crash => (log0, Crash)
      | Undefined => (log0, Undefined)
      end
  | Crash => (log0, Crash)
  | Undefined => (log0, Undefined)
  end.
End Defs.
End Compiler.

(** ** The contexts of the execution and range routines *)

(** Modelled from the spec: [ArraySlice] ([util/array_slice.h] is not part of
    the sources). An index outside the slice is an "address out of bounds",
    which is "fatal (abort)". *)
Definition slice_at {A} (v : list A) (i : nat) : Outcome A :=
  match v !! i with
  | Some x => Ok x
  | None => Crash
  end.

(** [class _ProcessContext] *)
Module _ProcessContext.
Record t := {
  _inputs : list nat;
  _outputs : list nat;
  _params : list byte;
}.

(** [get_params<T>()]: the blob, to be read as a [T]. *)
Definition get_params (c : t) : list byte := _params c.

Definition get_input_address (c : t) (i : nat) : Outcome nat :=
  slice_at (_inputs c) i.

Definition get_output_address (c : t) (i : nat) : Outcome nat :=
  slice_at (_outputs c) i.
End _ProcessContext.

(** [b.data[j] = v] leaves the other fields of the buffer alone. *)
Definition Buffer_with_data {float} (b : Buffer float) (arr : list float) : Buffer float :=
  {| data := Some arr;
     size := size b;
     capacity := capacity b;
     constant_value := constant_value b;
     is_constant := is_constant b;
     is_binding := is_binding b;
     local_users_count := local_users_count b |}.

(** [--b.local_users_count] on an [unsigned int]. *)
Definition Buffer_decrement_users {float} (b : Buffer float) : Buffer float :=
  {| data := data b;
     size := size b;
     capacity := capacity b;
     constant_value := constant_value b;
     is_constant := is_constant b;
     is_binding := is_binding b;
     local_users_count := (local_users_count b - 1) `mod` 2 ^ 32 |}.

(** [class ProcessBufferContext : public _ProcessContext] *)
Module ProcessBufferContext.
Section Defs.
Context {float : Type}.

Record t := {
  base : _ProcessContext.t;
  _buffers : list (Buffer float);
}.

(** [const Buffer &get_input(uint32_t i) const] *)
Definition get_input (c : t) (i : nat) : Outcome (Buffer float) :=
  address ← _ProcessContext.get_input_address (base c) i;
  slice_at (_buffers c) address.

(** [Buffer &get_output(uint32_t i)], read. *)
Definition get_output (c : t) (i : nat) : Outcome (Buffer float) :=
  address ← _ProcessContext.get_output_address (base c) i;
  slice_at (_buffers c) address.

(** [get_output(i).data[j] = v]: a store through the reference that
    [get_output] returns. The array must exist and hold index [j]. *)
Definition store_output (c : t) (i j : nat) (v : float) : Outcome t :=
  address ← _ProcessContext.get_output_address (base c) i;
  b ← slice_at (_buffers c) address;
  match data b with
  | None => Undefined
  | Some arr =>
      if j <? length arr
      then Ok {| base := base c;
                 _buffers := <[address := Buffer_with_data b (<[j := v]> arr)]> (_buffers c) |}
      else Undefined
  end.

(** [get_input(i).data[j] = v]: the reference that [get_input] returns is
    [const], the array its [data] points at is not. *)
Definition store_input (c : t) (i j : nat) (v : float) : Outcome t :=
  address ← _ProcessContext.get_input_address (base c) i;
  b ← slice_at (_buffers c) address;
  match data b with
  | None => Undefined
  | Some arr =>
      if j <? length arr
      then Ok {| base := base c;
                 _buffers := <[address := Buffer_with_data b (<[j := v]> arr)]> (_buffers c) |}
      else Undefined
  end.

(** [get_output(i) = b]: through the reference that [get_output] returns
    every field of the buffer can be assigned. *)
Definition set_output (c : t) (i : nat) (b : Buffer float) : Outcome t :=
  address ← _ProcessContext.get_output_address (base c) i;
  _ ← slice_at (_buffers c) address;
  Ok {| base := base c; _buffers := <[address := b]> (_buffers c) |}.
End Defs.
Arguments t : clear implicits.
End ProcessBufferContext.

(** [class RangeAnalysisContext : public _ProcessContext] *)
Module RangeAnalysisContext.
Section Defs.
Context {float : Type}.

Record t := {
  base : _ProcessContext.t;
  _ranges : list (Interval float);
  _buffers : list (Buffer float);
}.

(** [const Interval get_input(uint32_t i) const] *)
Definition get_input (c : t) (i : nat) : Outcome (Interval float) :=
  address ← _ProcessContext.get_input_address (base c) i;
  slice_at (_ranges c) address.

(** [void set_output(uint32_t i, const Interval r)] *)
Definition set_output (c : t) (i : nat) (r : Interval float) : Outcome t :=
  address ← _ProcessContext.get_output_address (base c) i;
  _ ← slice_at (_ranges c) address;
  Ok {| base := base c;
        _ranges := <[address := r]> (_ranges c);
        _buffers := _buffers c |}.

(** [void ignore_input(uint32_t i)] *)
Definition ignore_input (c : t) (i : nat) : Outcome t :=
  address ← _ProcessContext.get_input_address (base c) i;
  b ← slice_at (_buffers c) address;
  Ok {| base := base c;
        _ranges := _ranges c;
        _buffers := <[address := Buffer_decrement_users b]> (_buffers c) |}.
End Defs.
Arguments t : clear implicits.
End RangeAnalysisContext.

(** ** The execution and range routines *)

(** The type [ProcessBufferFunc] of pointers to functions from
    [ProcessBufferContext &] to [void]: the tree of the calls the routine
    makes on its context. *)
Inductive ProcessBufferFunc (float : Type) : Type :=
| process_return
| process_get_params (k : list byte → ProcessBufferFunc float)
| process_get_input_address (i : nat) (k : nat → ProcessBufferFunc float)
| process_get_input (i : nat) (k : Buffer float → ProcessBufferFunc float)
| process_get_output (i : nat) (k : Buffer float → ProcessBufferFunc float)
| process_store_output (i j : nat) (v : float) (k : ProcessBufferFunc float).
Arguments process_return {float}.
Arguments process_get_params {float} k.
Arguments process_get_input_address {float} i k.
Arguments process_get_input {float} i k.
Arguments process_get_output {float} i k.
Arguments process_store_output {float} i j v k.

(** The type [RangeAnalysisFunc] of pointers to functions from
    [RangeAnalysisContext &] to [void]. *)
Inductive RangeAnalysisFunc (float : Type) : Type :=
| range_return
| range_get_params (k : list byte → RangeAnalysisFunc float)
| range_get_input_address (i : nat) (k : nat → RangeAnalysisFunc float)
| range_get_input (i : nat) (k : Interval float → RangeAnalysisFunc float)
| range_set_output (i : nat) (r : Interval float) (k : RangeAnalysisFunc float)
| range_ignore_input (i : nat) (k : RangeAnalysisFunc float).
Arguments range_return {float}.
Arguments range_get_params {float} k.
Arguments range_get_input_address {float} i k.
Arguments range_get_input {float} i k.
Arguments range_set_output {float} i r k.
Arguments range_ignore_input {float} i k.

Fixpoint run_process_buffer_func {float : Type} (f : ProcessBufferFunc float)
    (c : ProcessBufferContext.t float) : Outcome (ProcessBufferContext.t float) :=
  match f with
  | process_return => Ok c
  | process_get_params k =>
      run_process_buffer_func (k (_ProcessContext.get_params (ProcessBufferContext.base c))) c
  | process_get_input_address i k =>
      a ← _ProcessContext.get_input_address (ProcessBufferContext.base c) i;
      run_process_buffer_func (k a) c
  | process_get_input i k =>
      b ← ProcessBufferContext.get_input c i; run_process_buffer_func (k b) c
  | process_get_output i k =>
      b ← ProcessBufferContext.get_output c i; run_process_buffer_func (k b) c
  | process_store_output i j v k =>
      c' ← ProcessBufferContext.store_output c i j v; run_process_buffer_func k c'
  end.

Fixpoint run_range_analysis_func {float : Type} (f : RangeAnalysisFunc float)
    (c : RangeAnalysisContext.t float) : Outcome (RangeAnalysisContext.t float) :=
  match f with
  | range_return => Ok c
  | range_get_params k =>
      run_range_analysis_func (k (_ProcessContext.get_params (RangeAnalysisContext.base c))) c
  | range_get_input_address i k =>
      a ← _ProcessContext.get_input_address (RangeAnalysisContext.base c) i;
      run_range_analysis_func (k a) c
  | range_get_input i k =>
      r ← RangeAnalysisContext.get_input c i; run_range_analysis_func (k r) c
  | range_set_output i r k =>
      c' ← RangeAnalysisContext.set_output c i r; run_range_analysis_func k c'
  | range_ignore_input i k =>
      c' ← RangeAnalysisContext.ignore_input c i; run_range_analysis_func k c'
  end.

(** Every access that the two references of [ProcessBufferContext] give an
    execute routine: besides what [ProcessBufferFunc] has, a store into the
    array of an input and the assignment of an output buffer as a whole.
    This is the type of the routines of the catalog. *)
Inductive ProcessBufferRoutine (float : Type) : Type :=
| routine_return
| routine_get_params (k : list byte → ProcessBufferRoutine float)
| routine_get_input_address (i : nat) (k : nat → ProcessBufferRoutine float)
| routine_get_input (i : nat) (k : Buffer float → ProcessBufferRoutine float)
| routine_store_input (i j : nat) (v : float) (k : ProcessBufferRoutine float)
| routine_get_output (i : nat) (k : Buffer float → ProcessBufferRoutine float)
| routine_set_output (i : nat) (b : Buffer float) (k : ProcessBufferRoutine float)
| routine_store_output (i j : nat) (v : float) (k : ProcessBufferRoutine float).
Arguments routine_return {float}.
Arguments routine_get_params {float} k.
Arguments routine_get_input_address {float} i k.
Arguments routine_get_input {float} i k.
Arguments routine_store_input {float} i j v k.
Arguments routine_get_output {float} i k.
Arguments routine_set_output {float} i b k.
Arguments routine_store_output {float} i j v k.

Fixpoint run_process_buffer_routine {float : Type} (f : ProcessBufferRoutine float)
    (c : ProcessBufferContext.t float) : Outcome (ProcessBufferContext.t float) :=
  match f with
  | routine_return => Ok c
  | routine_get_params k =>
      run_process_buffer_routine
        (k (_ProcessContext.get_params (ProcessBufferContext.base c))) c
  | routine_get_input_address i k =>
      a ← _ProcessContext.get_input_address (ProcessBufferContext.base c) i;
      run_process_buffer_routine (k a) c
  | routine_get_input i k =>
      b ← ProcessBufferContext.get_input c i; run_process_buffer_routine (k b) c
  | routine_store_input i j v k =>
      c' ← ProcessBufferContext.store_input c i j v; run_process_buffer_routine k c'
  | routine_get_output i k =>
      b ← ProcessBufferContext.get_output c i; run_process_buffer_routine (k b) c
  | routine_set_output i b k =>
      c' ← ProcessBufferContext.set_output c i b; run_process_buffer_routine k c'
  | routine_store_output i j v k =>
      c' ← ProcessBufferContext.store_output c i j v; run_process_buffer_routine k c'
  end.

(** A routine that only reads and stores into output arrays, as a routine of
    the catalog. *)
Fixpoint routine_of {float : Type} (f : ProcessBufferFunc float)
    : ProcessBufferRoutine float :=
  match f with
  | process_return => routine_return
  | process_get_params k => routine_get_params (λ blob, routine_of (k blob))
  | process_get_input_address i k =>
      routine_get_input_address i (λ a, routine_of (k a))
  | process_get_input i k => routine_get_input i (λ b, routine_of (k b))
  | process_get_output i k => routine_get_output i (λ b, routine_of (k b))
  | process_store_output i j v k => routine_store_output i j v (routine_of k)
  end.

(** ** Execution and range analysis *)

(** Modelled from the spec: an operation of the stream once read (reading
    the stream is the work of functions that are not part of the sources),
    "an opaque parameter blob plus explicit lists of input and output buffer
    addresses, tagged with an operation-kind identifier". *)
Record Operation := {
  opid : nat;
  op_inputs : list nat;
  op_outputs : list nat;
  op_params : list byte;
}.

Module Runtime.
Section Defs.
Context {float : Type}.

(** The order of [float], and the conversion from [int] that turns the
    corners of a box of [Vector3i] into bounds. *)
Variable float_le : float → float → bool.
Variable float_of_int : Z → float.

(** The catalog: the execution and the range routine registered for each
    operation kind. *)
Variable process_buffer_func : nat → ProcessBufferRoutine float.
Variable range_analysis_func : nat → RangeAnalysisFunc float.

(** Reading the operation serialized at an offset of the stream: the
    operation and the number of bytes it takes after its opid. The layout is
    the compiler's, which is not part of the sources. *)
Variable read_operation : list byte → nat → option (Operation * nat).

(** Modelled from the spec: [Interval::contains], for "a closed numeric range
    [min, max]". *)
Definition contains (r : Interval float) (v : float) : bool :=
  float_le (min r) v && float_le v (max r).

(** Modelled from the spec: the loop over the stream of [analyze_range], as
    the table of the operations "stored back-to-back in one contiguous byte
    stream", with their offsets, from offset [pc] on. Each one takes its opid
    and [n] more bytes, so that [length stream] steps are enough. *)
Fixpoint operations_from (fuel : nat) (stream : list byte) (pc : nat)
    : option (list (nat * Operation)) :=
  if length stream <=? pc then Some []
  else match fuel with
       | 0 => None
       | S fuel' =>
           match read_operation stream pc with
           | None => None
           | Some (op, n) =>
               rest ← operations_from fuel' stream (pc + 1 + n);
               Some ((pc, op) :: rest)
           end
       end.

Definition operation_table (stream : list byte) : option (list (nat * Operation)) :=
  operations_from (length stream) stream 0.

(** Modelled from the spec: the context an operation is dispatched with,
    "exposing only its declared input/output buffer addresses", and its
    parameters. *)
Definition context_of (op : Operation) : _ProcessContext.t :=
  {| _ProcessContext._inputs := op_inputs op;
     _ProcessContext._outputs := op_outputs op;
     _ProcessContext._params := op_params op |}.

(** Modelled from the spec: "each instruction dispatching to its registered
    execute routine". *)
Definition process_operation (op : Operation) (buffers : list (Buffer float))
    : Outcome (list (Buffer float)) :=
  c ← run_process_buffer_routine (process_buffer_func (opid op))
        {| ProcessBufferContext.base := context_of op;
           ProcessBufferContext._buffers := buffers |};
  Ok (ProcessBufferContext._buffers c).

(** Modelled from the spec: the same dispatch to the operation's
    "range-analysis routine (not its value routine)". *)
Definition analyze_operation (op : Operation)
    (s : list (Interval float) * list (Buffer float))
    : Outcome (list (Interval float) * list (Buffer float)) :=
  c ← run_range_analysis_func (range_analysis_func (opid op))
        {| RangeAnalysisContext.base := context_of op;
           RangeAnalysisContext._ranges := s.1;
           RangeAnalysisContext._buffers := s.2 |};
  Ok (RangeAnalysisContext._ranges c, RangeAnalysisContext._buffers c).

Fixpoint process_operations (ops : list Operation) (buffers : list (Buffer float))
    : Outcome (list (Buffer float)) :=
  match ops with
  | [] => Ok buffers
  | op :: ops' => bs ← process_operation op buffers; process_operations ops' bs
  end.

Fixpoint analyze_operations (ops : list Operation)
    (s : list (Interval float) * list (Buffer float))
    : Outcome (list (Interval float) * list (Buffer float)) :=
  match ops with
  | [] => Ok s
  | op :: ops' => s' ← analyze_operation op s; analyze_operations ops' s'
  end.

(** Modelled from the spec: running an instruction order, a "list of indexes
    within [operations]" as the header has it. *)
Fixpoint execute (stream : list byte) (order : list nat) (buffers : list (Buffer float))
    : Outcome (list (Buffer float)) :=
  match order with
  | [] => Ok buffers
  | address :: order' =>
      match read_operation stream address with
      | None => Undefined
      | Some (op, _) =>
          bs ← process_operation op buffers; execute stream order' bs
      end
  end.

(** An address of the Program, an [int] that is [-1] while unassigned, used
    as an index of a slice: a negative one is out of bounds. *)
Definition index_of (address : Z) : Outcome nat :=
  if (address <? 0)%Z then Crash else Ok (Z.to_nat address).

(** Modelled from the spec: binding an input buffer to a "single-element
    view" of a coordinate. *)
Definition bind_input (address : Z) (v : float) (buffers : list (Buffer float))
    : Outcome (list (Buffer float)) :=
  a ← index_of address;
  b ← slice_at buffers a;
  Ok (<[a := Buffer_with_data b [v]]> buffers).

(** Modelled from the spec: "the X/Y/Z address intervals derived from the
    queried axis-aligned box". *)
Definition set_input_range (address : Z) (r : Interval float)
    (ranges : list (Interval float)) : Outcome (list (Interval float)) :=
  a ← index_of address;
  _ ← slice_at ranges a;
  Ok (<[a := r]> ranges).

(** Modelled from the spec: the value read from a buffer at a single point.
    A buffer is "an array of up to [size] active values [...], OR a single
    compile-time constant value": for a constant buffer "the constant value
    is read directly", otherwise it is the first element of the array. *)
Definition buffer_value (b : Buffer float) : option float :=
  if is_constant b then Some (constant_value b)
  else match data b with
       | Some (v :: _) => Some v
       | _ => None
       end.

(** Modelled from the spec: [generate_single] (declared in the header,
    defined elsewhere). It "binds the X/Y/Z buffers to single-element views of
    the position, then executes the currently active instruction order
    (default or execution-map-narrowed), each instruction dispatching to its
    registered execute routine [...], and finally reads the output buffer's
    first element"; a constant output buffer has no array and gives its
    constant. *)
Definition generate_single (p : Program.t float) (s : State.t float)
    (position : float * float * float) (use_execution_map : bool)
    : Outcome (State.t float * float) :=
  let '(x, y, z) := position in
  bs ← bind_input (Program.x_input_address p) x (State.buffers s);
  bs ← bind_input (Program.y_input_address p) y bs;
  bs ← bind_input (Program.z_input_address p) z bs;
  bs ← execute (Program.operations p)
         (if use_execution_map then State.execution_map s
          else Program.default_execution_map p) bs;
  out ← index_of (Program.sdf_output_address p);
  b ← slice_at bs out;
  match buffer_value b with
  | Some v =>
      Ok ({| State.ranges := State.ranges s;
             State.buffers := bs;
             State.execution_map := State.execution_map s;
             State.debug_execution_map := State.debug_execution_map s;
             State.execution_map_xzy_start_index := State.execution_map_xzy_start_index s;
             State.buffer_size := State.buffer_size s;
             State.buffer_capacity := State.buffer_capacity s |}, v)
  | None => Undefined
  end.

(** Modelled from the spec: [analyze_range] (declared in the header, defined
    elsewhere). It "executes every instruction's range-analysis routine (not
    its value routine) over a context carrying per-address Intervals instead
    of value arrays, starting from the X/Y/Z address intervals derived from
    the queried axis-aligned box, and returns the interval computed at the
    output address". *)
Definition analyze_range (p : Program.t float) (s : State.t float)
    (min_pos max_pos : Z * Z * Z) : Outcome (State.t float * Interval float) :=
  let '(x0, y0, z0) := min_pos in
  let '(x1, y1, z1) := max_pos in
  rs ← set_input_range (Program.x_input_address p)
         {| min := float_of_int x0; max := float_of_int x1 |} (State.ranges s);
  rs ← set_input_range (Program.y_input_address p)
         {| min := float_of_int y0; max := float_of_int y1 |} rs;
  rs ← set_input_range (Program.z_input_address p)
         {| min := float_of_int z0; max := float_of_int z1 |} rs;
  match operation_table (Program.operations p) with
  | None => Undefined
  | Some table =>
      s' ← analyze_operations table.*2 (rs, State.buffers s);
      out ← index_of (Program.sdf_output_address p);
      r ← slice_at s'.1 out;
      Ok ({| State.ranges := s'.1;
             State.buffers := s'.2;
             State.execution_map := State.execution_map s;
             State.debug_execution_map := State.debug_execution_map s;
             State.execution_map_xzy_start_index := State.execution_map_xzy_start_index s;
             State.buffer_size := State.buffer_size s;
             State.buffer_capacity := State.buffer_capacity s |}, r)
  end.

(** A position lies inside the box. *)
Definition inside (min_pos max_pos : Z * Z * Z) (position : float * float * float) : Prop :=
  let '(x0, y0, z0) := min_pos in
  let '(x1, y1, z1) := max_pos in
  let '(x, y, z) := position in
  contains {| min := float_of_int x0; max := float_of_int x1 |} x = true
  ∧ contains {| min := float_of_int y0; max := float_of_int y1 |} y = true
  ∧ contains {| min := float_of_int z0; max := float_of_int z1 |} z = true.

(** *** What soundness is stated with *)

(** The interval at address [a] contains the value at address [a]. *)
Definition holds (bs : list (Buffer float)) (rs : list (Interval float)) (a : nat) : Prop :=
  ∃ b r v, bs !! a = Some b ∧ rs !! a = Some r
         ∧ buffer_value b = Some v ∧ contains r v = true.

(** The buffer at address [a] has an array of its own to be written. *)
Definition writable (bs : list (Buffer float)) (a : nat) : Prop :=
  ∃ b arr, bs !! a = Some b ∧ is_constant b = false
         ∧ data b = Some arr ∧ arr ≠ [].

(** The range routine of an operation is a sound over-approximation of its
    execute routine: "the true value set for any input in the given intervals
    must lie within the returned interval". The tables are those of a run at
    a single point: every buffer has the available count 1, the inputs hold
    values inside their intervals and the outputs have arrays. On them both
    routines return, the intervals written for the outputs contain the values
    written for them, and the execute routine has left its buffers fit for
    the operations that follow: the inputs still inside their intervals, the
    arrays and the available counts in place. *)
Definition sound_operation (op : Operation) : Prop :=
  ∀ (bs bs_r : list (Buffer float)) (rs : list (Interval float)),
    length rs = length bs → length bs_r = length bs →
    (∀ a b, bs !! a = Some b → size b = 1) →
    (∀ a, a ∈ op_inputs op → holds bs rs a) →
    (∀ a, a ∈ op_outputs op → writable bs a) →
    ∃ bs' s', process_operation op bs = Ok bs'
            ∧ analyze_operation op (rs, bs_r) = Ok s'
            ∧ (∀ a, a ∈ op_outputs op → holds bs' s'.1 a)
            ∧ (∀ a, a ∈ op_inputs op → holds bs' s'.1 a)
            ∧ (∀ a, writable bs a → writable bs' a)
            ∧ (∀ a b, bs' !! a = Some b → size b = 1).

(** What a routine cannot change. An execute routine reaches the buffers at
    its output addresses only, and only stores into their arrays. *)
Definition buffers_frame (outputs : list nat) (bs bs' : list (Buffer float)) : Prop :=
  length bs' = length bs
  ∧ (∀ a, a ∉ outputs → bs' !! a = bs !! a)
  ∧ (∀ a b, bs !! a = Some b →
       ∃ b', bs' !! a = Some b'
           ∧ is_constant b' = is_constant b
           ∧ constant_value b' = constant_value b
           ∧ (∀ arr, data b = Some arr → arr ≠ [] →
                ∃ arr', data b' = Some arr' ∧ arr' ≠ [])).

(** A range routine writes the intervals at its output addresses only. *)
Definition ranges_frame (outputs : list nat) (rs rs' : list (Interval float)) : Prop :=
  length rs' = length rs
  ∧ (∀ a, a ∉ outputs → rs' !! a = rs !! a).

(** [ignore_input] changes the count of users of a buffer and nothing else. *)
Definition users_frame (bs bs' : list (Buffer float)) : Prop :=
  length bs' = length bs
  ∧ (∀ a b, bs !! a = Some b →
       ∃ b', bs' !! a = Some b'
           ∧ data b' = data b
           ∧ is_constant b' = is_constant b
           ∧ constant_value b' = constant_value b
           ∧ size b' = size b).

(** An execute routine of the catalog reaches the buffers at its input and
    output addresses only. *)
Definition execute_frame (inputs outputs : list nat) (bs bs' : list (Buffer float)) : Prop :=
  length bs' = length bs
  ∧ (∀ a, a ∉ inputs → a ∉ outputs → bs' !! a = bs !! a).

(** All that a range routine can have changed in the intervals and buffers
    it was given: intervals at its output addresses, and the count of users
    of buffers at its input addresses. *)
Definition analysis_footprint (inputs outputs : list nat)
    (rs : list (Interval float)) (bs : list (Buffer float))
    (rs' : list (Interval float)) (bs' : list (Buffer float)) : Prop :=
  length rs' = length rs
  ∧ length bs' = length bs
  ∧ (∀ a, a ∉ outputs → rs' !! a = rs !! a)
  ∧ (∀ a, a ∉ inputs → bs' !! a = bs !! a)
  ∧ (∀ a b, bs !! a = Some b →
       ∃ b', bs' !! a = Some b'
           ∧ data b' = data b ∧ size b' = size b ∧ capacity b' = capacity b
           ∧ constant_value b' = constant_value b
           ∧ is_constant b' = is_constant b ∧ is_binding b' = is_binding b).

(** The addresses of the buffers that hold a constant, and of those the
    State allocates an array for. *)
Definition constant_addresses (p : Program.t float) : list nat :=
  bs_address <$> filter (λ spec, bs_is_constant spec = true) (Program.buffer_specs p).

Definition owned_addresses (p : Program.t float) : list nat :=
  bs_address <$> filter (λ spec, bs_is_constant spec = false ∧ bs_is_binding spec = false)
                   (Program.buffer_specs p).

(** Producers come before consumers: every input of an operation is
    available when it runs ([avail] lists the inputs X, Y, Z, the constants
    and the outputs of the operations before it), and every output goes to a
    buffer of the State's own. *)
Fixpoint dataflow (owned avail : list nat) (ops : list Operation) : Prop :=
  match ops with
  | [] => True
  | op :: ops' =>
      (∀ a, a ∈ op_inputs op → a ∈ avail)
      ∧ (∀ a, a ∈ op_outputs op → a ∈ owned)
      ∧ dataflow owned (op_outputs op ++ avail) ops'
  end.

(** What a successful compilation leaves. The three inputs and the output
    are bound ("missing a required input binding, is a compile error"), the
    inputs to buffers that are not constants. The operations lie in the
    stream in the default order ("their order is the default execution
    order"). Data flows from producers to consumers (the compiler "walks the
    input node graph in dependency order"). The output address is one whose
    value is known at the end: an input, a constant or the output of an
    operation. *)
Record compiled (p : Program.t float) (table : list (nat * Operation)) : Prop := {
  compiled_table : operation_table (Program.operations p) = Some table;
  compiled_order : Program.default_execution_map p = table.*1;
  compiled_inputs :
    ∀ address, address ∈ [Program.x_input_address p; Program.y_input_address p;
                          Program.z_input_address p] →
      (0 ≤ address)%Z
      ∧ ∃ spec, spec ∈ Program.buffer_specs p
              ∧ bs_address spec = Z.to_nat address ∧ bs_is_constant spec = false;
  compiled_output :
    (0 ≤ Program.sdf_output_address p)%Z
    ∧ (Z.to_nat (Program.sdf_output_address p)
         ∈ [Z.to_nat (Program.x_input_address p); Z.to_nat (Program.y_input_address p);
            Z.to_nat (Program.z_input_address p)] ++ constant_addresses p
       ∨ ∃ op, op ∈ table.*2 ∧ Z.to_nat (Program.sdf_output_address p) ∈ op_outputs op);
  compiled_dataflow :
    dataflow (owned_addresses p)
      ([Z.to_nat (Program.x_input_address p); Z.to_nat (Program.y_input_address p);
        Z.to_nat (Program.z_input_address p)] ++ constant_addresses p)
      table.*2;
}.

(** A State shaped for the Program by [prepare_state]: one buffer and one
    interval per address; every buffer has the available count of the State
    ("all buffers have the same available count"); a constant buffer holds
    its constant, and its interval contains it; a buffer that is neither a
    constant nor a binding has an array. *)
Record prepared (p : Program.t float) (s : State.t float) : Prop := {
  prepared_buffers : length (State.buffers s) = Program.buffer_count p;
  prepared_ranges : length (State.ranges s) = Program.buffer_count p;
  prepared_sizes :
    ∀ a b, State.buffers s !! a = Some b → size b = State.buffer_size s;
  prepared_specs :
    ∀ spec, spec ∈ Program.buffer_specs p →
      ∃ b, State.buffers s !! bs_address spec = Some b
         ∧ is_constant b = bs_is_constant spec
         ∧ (bs_is_constant spec = true →
              constant_value b = bs_constant_value spec
              ∧ ∃ r, State.ranges s !! bs_address spec = Some r
                   ∧ contains r (bs_constant_value spec) = true)
         ∧ (bs_is_constant spec = false → bs_is_binding spec = false →
              ∃ arr, data b = Some arr ∧ arr ≠ []);
}.

(** The order that [generate_single] runs is the default order of the
    Program: the execution map is not used, or the one the State holds is
    the default order. *)
Definition runs_default_order (p : Program.t float) (s : State.t float)
    (use_execution_map : bool) : Prop :=
  use_execution_map = true → State.execution_map s = Program.default_execution_map p.
End Defs.
End Runtime.

(** ** The VoxelStringNames singleton *)

Module VoxelStringNames.
(** The object: the three names its constructor interns with
    [StaticCString::create]. *)
Record t := {
  emerge_block : string;
  immerge_block : string;
  u_transition_mask : string;
}.

(** [VoxelStringNames::VoxelStringNames()] *)
Definition constructor : t :=
  {| emerge_block := "emerge_block";
     immerge_block := "immerge_block";
     u_transition_mask := "u_transition_mask" |}.

(** The static pointer [g_singleton] ([0] is [nullptr]) and the instances
    alive on the heap, by address. *)
Record Globals := {
  g_singleton : N;
  instances : gmap N t;
}.

(** A static pointer is zero-initialised; no instance exists at start. *)
Definition initial : Globals :=
  {| g_singleton := 0; instances := ∅ |}.

(** [memnew(VoxelStringNames)]: a new object at an address that is not null
    and not in use. *)
Definition memnew (h : gmap N t) : N * gmap N t :=
  let q := fresh ({[0%N]} ∪ dom h) in
  (q, <[q := constructor]> h).

(** [memdelete(q)]: deleting what is not alive is undefined. *)
Definition memdelete (q : N) (h : gmap N t) : Outcome (gmap N t) :=
  match h !! q with
  | Some _ => Ok (delete q h)
  | None => Undefined
  end.

(** [void VoxelStringNames::create_singleton()] *)
Definition create_singleton (g : Globals) : Outcome Globals :=
  CRASH_COND (negb (g_singleton g =? 0)%N);;
  (let '(q, h) := memnew (instances g) in
   Ok {| g_singleton := q; instances := h |}).

(** [void VoxelStringNames::destroy_singleton()] *)
Definition destroy_singleton (g : Globals) : Outcome Globals :=
  CRASH_COND (g_singleton g =? 0)%N;;
  h ← memdelete (g_singleton g) (instances g);
  Ok {| g_singleton := 0; instances := h |}.

(** The calls of the lifecycle, and a run of several of them. *)
Inductive Call := Create | Destroy.

Definition call (k : Call) (g : Globals) : Outcome Globals :=
  match k with
  | Create => create_singleton g
  | Destroy => destroy_singleton g
  end.

Fixpoint run (ks : list Call) (g : Globals) : Outcome Globals :=
  match ks with
  | [] => Ok g
  | k :: ks' => g' ← call k g; run ks' g'
  end.

(** At most one instance exists, and [g_singleton] points at it. *)
Definition at_most_one (g : Globals) : Prop :=
  (g_singleton g = 0%N ∧ instances g = ∅)
  ∨ (g_singleton g ≠ 0%N ∧ ∃ x, instances g = {[ g_singleton g := x ]}).

(** A sequence of calls that takes turns, starting with [expect]. *)
Fixpoint alternates (expect : Call) (ks : list Call) : bool :=
  match ks with
  | [] => true
  | k :: ks' =>
      match expect, k with
      | Create, Create => alternates Destroy ks'
      | Destroy, Destroy => alternates Create ks'
      | _, _ => false
      end
  end.
End VoxelStringNames.

(** ** An instance: the graph [output = X + Y] over the integers *)

Module AddGraph.
(** The value a routine reads from a buffer at a single point. *)
Definition first_value (b : Buffer Z) : Z :=
  if is_constant b then constant_value b
  else match data b with
       | Some (v :: _) => v
       | _ => 0%Z
       end.

(** The execute routine of the addition: [out = a + b]. *)
Definition add_process : ProcessBufferFunc Z :=
  process_get_input 0 (λ a,
  process_get_input 1 (λ b,
  process_store_output 0 0 (first_value a + first_value b)%Z process_return)).

(** Its range routine: the sum of two intervals. *)
Definition add_range : RangeAnalysisFunc Z :=
  range_get_input 0 (λ a,
  range_get_input 1 (λ b,
  range_set_output 0 {| min := (min a + min b)%Z; max := (max a + max b)%Z |}
    range_return)).

(** A stream layout for operations with two inputs and one output: the
    opid, then the three addresses, one byte each. *)
Definition read_operation (stream : list byte) (pc : nat) : option (Operation * nat) :=
  match drop pc stream with
  | o :: a :: b :: c :: _ =>
      Some ({| opid := Byte.to_nat o;
               op_inputs := [Byte.to_nat a; Byte.to_nat b];
               op_outputs := [Byte.to_nat c];
               op_params := [] |}, 3)
  | _ => None
  end.

Definition add_operation : Operation :=
  {| opid := 0; op_inputs := [0; 1]; op_outputs := [3]; op_params := [] |}.

Definition binding_spec (a : nat) : BufferSpec Z :=
  {| bs_address := a; bs_users_count := 1; bs_constant_value := 0%Z;
     bs_is_constant := false; bs_is_binding := true |}.

Definition owned_spec (a : nat) : BufferSpec Z :=
  {| bs_address := a; bs_users_count := 0; bs_constant_value := 0%Z;
     bs_is_constant := false; bs_is_binding := false |}.

(** X, Y and Z at addresses 0, 1 and 2; the sum at address 3. *)
Definition program : Program.t Z :=
  {| Program.operations := [x00; x00; x01; x03];
     Program.dependency_graph :=
       {| dependencies := [];
          nodes := [ {| first_dependency := 0; end_dependency := 0; op_address := 0;
                        is_output := true; debug_node_id := 1 |} ] |};
     Program.default_execution_map := [0];
     Program.heap_resources := [];
     Program.ref_resources := [];
     Program.buffer_specs :=
       [ binding_spec 0; binding_spec 1; binding_spec 2; owned_spec 3 ];
     Program.xzy_start_op_address := 0;
     Program.xzy_start_execution_map_index := 0;
     Program.x_input_address := 0;
     Program.y_input_address := 1;
     Program.z_input_address := 2;
     Program.sdf_output_address := 3;
     Program.sdf_output_node_index := 0;
     Program.buffer_count := 4;
     Program.output_port_addresses := ∅;
     Program.compilation_result := {| success := true; node_id := -1; message := "" |} |}.

(** Element [j] of a buffer, as a routine reads it. *)
Definition element (b : Buffer Z) (j : nat) : Z :=
  if is_constant b then constant_value b
  else default 0%Z (data b ≫= (λ arr, arr !! j)).

(** The execute routine of the addition over the available count of its
    output: [out[j] = a[j] + b[j]] for [j < out.size]. *)
Definition add_routine : ProcessBufferRoutine Z :=
  routine_get_input 0 (λ a,
  routine_get_input 1 (λ b,
  routine_get_output 0 (λ o,
  foldr (λ j k, routine_store_output 0 j (element a j + element b j)%Z k)
    routine_return (seq 0 (size o))))).

Definition unbound : Buffer Z :=
  {| data := None; size := 1; capacity := 0; constant_value := 0%Z;
     is_constant := false; is_binding := true; local_users_count := 1%Z |}.

Definition state : State.t Z :=
  {| State.ranges := replicate 4 {| min := 0%Z; max := 0%Z |};
     State.buffers :=
       [ unbound; unbound; unbound;
         {| data := Some [0%Z]; size := 1; capacity := 1; constant_value := 0%Z;
            is_constant := false; is_binding := false; local_users_count := 0%Z |} ];
     State.execution_map := [0];
     State.debug_execution_map := [];
     State.execution_map_xzy_start_index := 0;
     State.buffer_size := 1;
     State.buffer_capacity := 1 |}.

(** The same State with a narrowed execution map, from which the addition
    has been pruned: what [generate_optimized_execution_map] may leave after
    the analysis of a box over which the output is a constant. *)
Definition pruned_state : State.t Z :=
  {| State.ranges := State.ranges state;
     State.buffers := State.buffers state;
     State.execution_map := [];
     State.debug_execution_map := [];
     State.execution_map_xzy_start_index := 0;
     State.buffer_size := 1;
     State.buffer_capacity := 1 |}.

(** The graph [output = X]: no operation, and the output at the address of
    the input X. *)
Definition pass_through_program : Program.t Z :=
  {| Program.operations := [];
     Program.dependency_graph := {| dependencies := []; nodes := [] |};
     Program.default_execution_map := [];
     Program.heap_resources := [];
     Program.ref_resources := [];
     Program.buffer_specs := [ binding_spec 0; binding_spec 1; binding_spec 2 ];
     Program.xzy_start_op_address := 0;
     Program.xzy_start_execution_map_index := 0;
     Program.x_input_address := 0;
     Program.y_input_address := 1;
     Program.z_input_address := 2;
     Program.sdf_output_address := 0;
     Program.sdf_output_node_index := 0;
     Program.buffer_count := 3;
     Program.output_port_addresses := ∅;
     Program.compilation_result := {| success := true; node_id := -1; message := "" |} |}.

Definition pass_through_state : State.t Z :=
  {| State.ranges := replicate 3 {| min := 0%Z; max := 0%Z |};
     State.buffers := [ unbound; unbound; unbound ];
     State.execution_map := [];
     State.debug_execution_map := [];
     State.execution_map_xzy_start_index := 0;
     State.buffer_size := 1;
     State.buffer_capacity := 1 |}.
End AddGraph.

(* ===================================================================== *)
(** * Part II. Theorems *)
(* ===================================================================== *)

Section CompileContextFacts.
Context {Node Variant : Type}.
Implicit Types (c : CompileContext.t Node Variant) (blob : list byte).

Lemma store_at_end (v blob : list byte) :
  CompileContext.store_at (length v) blob (v ++ replicate (length blob) x00)
  = v ++ blob.
Proof.
  unfold CompileContext.store_at.
  rewrite take_app_length.
  rewrite drop_app_ge by lia.
  rewrite drop_ge; last (rewrite length_replicate; lia).
  by rewrite app_nil_r.
Qed.

Lemma set_params_fresh (node : Node) program hr (params : list Variant) blob :
  CompileContext.set_params blob (CompileContext.new node program hr params)
  = Ok {| CompileContext._node := node;
          CompileContext._offset := length program;
          CompileContext._program := program ++ blob;
          CompileContext._heap_resources := hr;
          CompileContext._params := params;
          CompileContext._error_message := "";
          CompileContext._has_error := false |}.
Proof.
  unfold CompileContext.set_params, CompileContext.new; simpl.
  rewrite Nat.eqb_refl; simpl.
  by rewrite store_at_end.
Qed.
End CompileContextFacts.

(** ** CompileContext: [get_param] and [set_params] *)

Section CompileContextClaims.
Context {Node Variant : Type}.
Implicit Types (c : CompileContext.t Node Variant) (blob : list byte).

(** An index strictly past the size is rejected. *)
Lemma get_param_past_end c i :
  length (CompileContext._params c) < i → CompileContext.get_param c i = Crash.
Proof.
  intros Hi. unfold CompileContext.get_param.
  apply Nat.ltb_lt in Hi. by rewrite Hi.
Qed.

(** A valid index returns the stored parameter. *)
Lemma get_param_valid c i (v : Variant) :
  CompileContext._params c !! i = Some v → CompileContext.get_param c i = Ok v.
Proof.
  intros Hv. unfold CompileContext.get_param.
  assert (Hlt : i < length (CompileContext._params c)) by (by eapply lookup_lt_Some).
  assert (Hb : (length (CompileContext._params c) <? i) = false) by (apply Nat.ltb_ge; lia).
  rewrite Hb. simpl. unfold vector_at. by rewrite Hv.
Qed.

(** C9 (the code at the failing input). With [i] equal to the number of
    declared parameters the guard [i > size] does not fire: [get_param] does
    not abort and reads one element past the end of [_params]. *)
Theorem get_param_index_equal_size_not_rejected c :
  CompileContext.get_param c (length (CompileContext._params c)) = Undefined.
Proof.
  unfold CompileContext.get_param.
  rewrite Nat.ltb_irrefl. simpl. unfold vector_at.
  by rewrite lookup_ge_None_2.
Qed.

(** A freshly built context has written no parameters. *)
Lemma new_offset_at_end (node : Node) program hr (params : list Variant) :
  CompileContext._offset (CompileContext.new node program hr params)
  = length (CompileContext._program (CompileContext.new node program hr params)).
Proof. reflexivity. Qed.

(** The other methods leave the stream and the recorded offset alone. *)
Lemma add_memdelete_cleanup_keeps_stream T p c :
  CompileContext._program (CompileContext.add_memdelete_cleanup T p c) = CompileContext._program c
  ∧ CompileContext._offset (CompileContext.add_memdelete_cleanup T p c) = CompileContext._offset c.
Proof. done. Qed.

Lemma make_error_keeps_stream msg c :
  CompileContext._program (CompileContext.make_error msg c) = CompileContext._program c
  ∧ CompileContext._offset (CompileContext.make_error msg c) = CompileContext._offset c.
Proof. done. Qed.

(** The first [set_params]: the guard passes and the blob lands at the end
    of the stream. *)
Lemma set_params_appends c blob :
  CompileContext._offset c = length (CompileContext._program c) →
  CompileContext.set_params blob c
  = Ok {| CompileContext._node := CompileContext._node c;
          CompileContext._offset := CompileContext._offset c;
          CompileContext._program := CompileContext._program c ++ blob;
          CompileContext._heap_resources := CompileContext._heap_resources c;
          CompileContext._params := CompileContext._params c;
          CompileContext._error_message := CompileContext._error_message c;
          CompileContext._has_error := CompileContext._has_error c |}.
Proof.
  intros Hoff. unfold CompileContext.set_params.
  rewrite Hoff at 1. rewrite Nat.eqb_refl. simpl.
  rewrite Hoff at 2. by rewrite store_at_end.
Qed.

(** Once the stream has grown past the recorded offset the guard fails. *)
Lemma set_params_after_write c blob :
  CompileContext._offset c < length (CompileContext._program c) →
  CompileContext.set_params blob c = Crash.
Proof.
  intros Hlt. unfold CompileContext.set_params.
  assert (Hb : (CompileContext._offset c =? length (CompileContext._program c)) = false)
    by (apply Nat.eqb_neq; lia).
  by rewrite Hb.
Qed.

(** A compile routine that sets its parameters a second time aborts the
    compilation, whatever it does in between and afterwards. *)
Lemma run_compile_func_second_set_params (node : Node) program hr (params : list Variant)
    blob1 blob2 (k : CompileFunc Variant) :
  blob1 ≠ [] →
  run_compile_func (compile_set_params blob1 (compile_set_params blob2 k))
    (CompileContext.new node program hr params) = Crash.
Proof.
  intros Hne. simpl.
  rewrite set_params_appends by done. simpl.
  rewrite set_params_after_write; [done|]. simpl.
  rewrite length_app. destruct blob1; [done|]. simpl. lia.
Qed.

(** C5. On a context that has written no parameters yet (the recorded
    offset is the end of the stream, as the constructor leaves it), the
    first [set_params] succeeds and appends the blob right after the
    instruction, at the recorded offset, leaving the earlier bytes and the
    offset as they were; since [sizeof(T)] is at least one byte, the guard
    then fails and every further [set_params] on that context aborts. *)
Theorem set_params_only_once c blob1 :
  CompileContext._offset c = length (CompileContext._program c) →
  blob1 ≠ [] →
  ∃ c1, CompileContext.set_params blob1 c = Ok c1
      ∧ CompileContext._program c1 = CompileContext._program c ++ blob1
      ∧ CompileContext._offset c1 = CompileContext._offset c
      ∧ take (length blob1) (drop (CompileContext._offset c1) (CompileContext._program c1)) = blob1
      ∧ ∀ blob2, CompileContext.set_params blob2 c1 = Crash.
Proof.
  intros Hoff Hne.
  assert (Hlen : length blob1 ≠ 0) by (by destruct blob1).
  eexists. split; [by apply set_params_appends|]. simpl.
  split; [done|]. split; [done|]. split.
  - by rewrite Hoff, drop_app_length, firstn_all.
  - intros blob2. apply set_params_after_write. simpl.
    rewrite length_app. lia.
Qed.

(** When the end of the stream has moved since the context was built, even
    the first [set_params] aborts. *)
Lemma set_params_stale c blob :
  CompileContext._offset c ≠ length (CompileContext._program c) →
  CompileContext.set_params blob c = Crash.
Proof.
  intros Hne. unfold CompileContext.set_params.
  apply Nat.eqb_neq in Hne. by rewrite Hne.
Qed.
End CompileContextClaims.

(** C5 at a concrete node: a two byte stream, then a three byte blob. *)
Lemma set_params_only_once_witness :
  ∃ c1, CompileContext.set_params [x01; x02; x03]
          (CompileContext.new tt [xaa; xbb] [] ([] : list unit)) = Ok c1
      ∧ CompileContext._program c1 = [xaa; xbb; x01; x02; x03]
      ∧ CompileContext.set_params [x04] c1 = Crash.
Proof.
  destruct (set_params_only_once
              (CompileContext.new tt [xaa; xbb] [] ([] : list unit)) [x01; x02; x03])
    as (c1 & H1 & H2 & _ & _ & H5).
  - reflexivity.
  - discriminate.
  - exists c1. split; [exact H1|]. split; [exact H2|]. apply H5.
Defined.

(** ** State: bounds checks and [clear] *)

Section StateClaims.
Context {float : Type}.
Implicit Types (s : State.t float) (b : Buffer float) (r : Interval float).

Lemma get_buffer_crash s address :
  length (State.buffers s) ≤ address → State.get_buffer s address = Crash.
Proof.
  intros H. unfold State.get_buffer.
  apply Nat.leb_le in H. by rewrite H.
Qed.

Lemma get_range_crash s address :
  length (State.buffers s) ≤ address → State.get_range s address = Crash.
Proof.
  intros H. unfold State.get_range.
  apply Nat.leb_le in H. by rewrite H.
Qed.

Lemma get_buffer_ok s address b :
  State.buffers s !! address = Some b → State.get_buffer s address = Ok b.
Proof.
  intros Hb. unfold State.get_buffer.
  assert (Hlt : address < length (State.buffers s)) by (by eapply lookup_lt_Some).
  assert (Hg : (length (State.buffers s) <=? address) = false) by (apply Nat.leb_gt; lia).
  rewrite Hg. simpl. unfold vector_at. by rewrite Hb.
Qed.

Lemma get_range_ok s address r :
  address < length (State.buffers s) →
  State.ranges s !! address = Some r → State.get_range s address = Ok r.
Proof.
  intros Hlt Hr. unfold State.get_range.
  assert (Hg : (length (State.buffers s) <=? address) = false) by (apply Nat.leb_gt; lia).
  rewrite Hg. simpl. unfold vector_at. by rewrite Hr.
Qed.

(** C4. An address at or past the number of buffers aborts both getters;
    below it, [get_buffer] returns the buffer stored there and [get_range]
    the interval stored there. (The State keeps one interval per buffer;
    [get_range] guards with the number of buffers.) *)
Theorem get_buffer_get_range_bounds s address :
  (length (State.buffers s) ≤ address →
     State.get_buffer s address = Crash ∧ State.get_range s address = Crash)
  ∧ (address < length (State.buffers s) →
     (∃ b, State.buffers s !! address = Some b ∧ State.get_buffer s address = Ok b)
     ∧ (∀ r, State.ranges s !! address = Some r → State.get_range s address = Ok r)
     ∧ (length (State.ranges s) = length (State.buffers s) →
        ∃ r, State.ranges s !! address = Some r ∧ State.get_range s address = Ok r)).
Proof.
  split.
  - intros H. split; [by apply get_buffer_crash | by apply get_range_crash].
  - intros Hlt. split; [|split].
    + destruct (lookup_lt_is_Some_2 (State.buffers s) address Hlt) as [b Hb].
      exists b. split; [done | by apply get_buffer_ok].
    + intros r Hr. by apply get_range_ok.
    + intros Hlen.
      destruct (lookup_lt_is_Some_2 (State.ranges s) address) as [r Hr]; [lia|].
      exists r. split; [done | by apply get_range_ok].
Qed.

(** The calls of [memfree] made by the loop are exactly the arrays of the
    buffers that hold one and are not bindings. *)
Lemma free_buffers_spec (bs : list (Buffer float)) k (f : Memfree float) :
  f ∈ State.free_buffers k bs ↔
  ∃ j b, bs !! j = Some b ∧ data b = Some (freed_array f)
       ∧ is_binding b = false ∧ freed_address f = k + j.
Proof.
  revert k. induction bs as [|b0 bs IH]; intros k; simpl.
  - split; [by intros ?%elem_of_nil | by intros (j & b & ? & _)].
  - assert (Htail : f ∈ State.free_buffers (S k) bs ↔
              ∃ j b, (b0 :: bs) !! S j = Some b ∧ data b = Some (freed_array f)
                   ∧ is_binding b = false ∧ freed_address f = k + S j).
    { rewrite IH. split; intros (j & b & H1 & H2 & H3 & H4);
        exists j, b; repeat split; try done; lia. }
    assert (Hsplit : (∃ j b, (b0 :: bs) !! j = Some b ∧ data b = Some (freed_array f)
                        ∧ is_binding b = false ∧ freed_address f = k + j)
              ↔ (data b0 = Some (freed_array f) ∧ is_binding b0 = false
                   ∧ freed_address f = k)
                ∨ f ∈ State.free_buffers (S k) bs).
    { rewrite Htail. split.
      - intros ([|j] & b & H1 & H2 & H3 & H4).
        + left. simpl in H1. injection H1 as <-. repeat split; try done. lia.
        + right. eauto 10.
      - intros [(H2 & H3 & H4) | (j & b & H)].
        + exists 0, b0. repeat split; try done. lia.
        + exists (S j), b. done. }
    rewrite Hsplit. clear Hsplit Htail.
    destruct (data b0) as [arr|] eqn:Hd; [destruct (is_binding b0) eqn:Hbind|]; simpl.
    + split; [by right | by intros [(_ & ? & _)|?]].
    + rewrite elem_of_cons. split.
      * intros [-> | ?]; [left; by simpl | by right].
      * intros [(H2 & _ & H4) | ?]; [left | by right].
        destruct f as [fa farr]; simpl in *. congruence.
    + split; [by right | by intros [(? & _)|?]].
Qed.

(** Every call of [memfree] is for a different buffer. *)
Lemma free_buffers_addresses (bs : list (Buffer float)) k :
  NoDup (freed_address <$> State.free_buffers k bs)
  ∧ ∀ f, f ∈ State.free_buffers k bs → k ≤ freed_address f.
Proof.
  revert k. induction bs as [|b0 bs IH]; intros k; simpl.
  - split; [constructor | by intros f ?%elem_of_nil].
  - destruct (IH (S k)) as [Hnd Hge].
    destruct (data b0) as [arr|]; [destruct (is_binding b0)|]; simpl.
    + split; [done|]. intros f Hf. specialize (Hge f Hf). lia.
    + split.
      * constructor; [|done]. intros (f & Hf1 & Hf2)%list_elem_of_fmap.
        specialize (Hge f Hf2). lia.
      * intros f [->|Hf]%elem_of_cons; simpl; [lia|]. specialize (Hge f Hf). lia.
    + split; [done|]. intros f Hf. specialize (Hge f Hf). lia.
Qed.

(** C7. [clear] frees the array of every buffer that holds one and is not a
    binding, frees nothing through a buffer flagged as a binding, frees no
    array twice, and leaves a State with no buffers, no ranges and zero
    buffer size and capacity. *)
Theorem clear_frees_owned_buffers_only s :
  (∀ i b arr, State.buffers s !! i = Some b → data b = Some arr →
              is_binding b = false →
              {| freed_address := i; freed_array := arr |} ∈ (State.clear s).2)
  ∧ (∀ i b, State.buffers s !! i = Some b → is_binding b = true →
            ∀ f, f ∈ (State.clear s).2 → freed_address f ≠ i)
  ∧ NoDup (freed_address <$> (State.clear s).2)
  ∧ State.buffers (State.clear s).1 = []
  ∧ State.ranges (State.clear s).1 = []
  ∧ State.buffer_size (State.clear s).1 = 0
  ∧ State.buffer_capacity (State.clear s).1 = 0.
Proof.
  unfold State.clear; simpl. repeat split.
  - intros i b arr Hb Hd Hbind. apply free_buffers_spec.
    exists i, b. by repeat split.
  - intros i b Hb Hbind f Hf Heq.
    apply free_buffers_spec in Hf as (j & b' & Hb' & _ & Hbind' & Hj).
    simpl in Hj. assert (j = i) as -> by lia. congruence.
  - apply free_buffers_addresses.
Qed.
End StateClaims.

(** C4 on a State of two buffers: address 1 is served, address 2 aborts. *)
Lemma get_buffer_get_range_bounds_witness :
  let b0 := {| data := Some [7%Z]; size := 1; capacity := 1; constant_value := 0%Z;
               is_constant := false; is_binding := false; local_users_count := 1%Z |} in
  let b1 := {| data := None; size := 1; capacity := 1; constant_value := 5%Z;
               is_constant := true; is_binding := false; local_users_count := 0%Z |} in
  let s := {| State.ranges := [ {| min := 0%Z; max := 9%Z |}; {| min := 5%Z; max := 5%Z |} ];
              State.buffers := [b0; b1];
              State.execution_map := []; State.debug_execution_map := [];
              State.execution_map_xzy_start_index := 0;
              State.buffer_size := 1; State.buffer_capacity := 1 |} in
  State.get_buffer s 2 = Crash ∧ State.get_range s 2 = Crash
  ∧ State.get_buffer s 1 = Ok b1
  ∧ State.get_range s 1 = Ok {| min := 5%Z; max := 5%Z |}.
Proof.
  intros b0 b1 s.
  destruct (get_buffer_get_range_bounds s 2) as [Hout _].
  destruct (get_buffer_get_range_bounds s 1) as [_ Hin].
  destruct Hout as [H1 H2]; [simpl; lia|].
  destruct Hin as ((b & Hb & Hgb) & Hgr & _); [simpl; lia|].
  split; [exact H1|]. split; [exact H2|]. split.
  - simpl in Hb. injection Hb as <-. exact Hgb.
  - apply Hgr. reflexivity.
Defined.

(** C7 on a State with an owned array, a constant and a binding. *)
Lemma clear_frees_owned_buffers_only_witness :
  let owned := {| data := Some [1%Z; 2%Z]; size := 2; capacity := 2; constant_value := 0%Z;
                  is_constant := false; is_binding := false; local_users_count := 1%Z |} in
  let const := {| data := None; size := 2; capacity := 2; constant_value := 5%Z;
                  is_constant := true; is_binding := false; local_users_count := 1%Z |} in
  let bound := {| data := Some [3%Z; 4%Z]; size := 2; capacity := 2; constant_value := 0%Z;
                  is_constant := false; is_binding := true; local_users_count := 1%Z |} in
  let s := {| State.ranges := []; State.buffers := [owned; const; bound];
              State.execution_map := []; State.debug_execution_map := [];
              State.execution_map_xzy_start_index := 0;
              State.buffer_size := 2; State.buffer_capacity := 2 |} in
  {| freed_address := 0; freed_array := [1%Z; 2%Z] |} ∈ (State.clear s).2
  ∧ (∀ f, f ∈ (State.clear s).2 → freed_address f ≠ 2)
  ∧ State.buffers (State.clear s).1 = [].
Proof.
  intros owned const bound s.
  destruct (clear_frees_owned_buffers_only s) as (Hfree & Hkeep & _ & Hnil & _).
  split; [|split].
  - apply (Hfree 0 owned); reflexivity.
  - apply (Hkeep 2 bound); reflexivity.
  - exact Hnil.
Defined.

(** ** Program: [clear] and the registered resources *)

Section ProgramClaims.
Context {float : Type}.
Implicit Types (p : Program.t float) (hs : list HeapResource).

(** [add_memdelete_cleanup] appends one resource with the deleter of its
    type and touches nothing else. *)
Lemma add_memdelete_cleanup_registers {Node Variant : Type}
    (c : CompileContext.t Node Variant) T q :
  CompileContext._heap_resources (CompileContext.add_memdelete_cleanup T q c)
  = CompileContext._heap_resources c ++ [ {| ptr := q; deleter := Some (memdelete_of T) |} ].
Proof. reflexivity. Qed.

Lemma delete_heap_resources_ok hs :
  Forall releasable hs →
  ∃ log, Program.delete_heap_resources hs = (log, Ok tt) ∧ Forall2 released_by hs log.
Proof.
  induction 1 as [|r hs [Hp [d Hd]] _ (log & Hlog & Hall)]; simpl.
  - exists []. by split.
  - rewrite Hd. apply N.eqb_neq in Hp. rewrite Hp, Hlog.
    exists (Delete d (ptr r) :: log). split; [done|].
    constructor; [by exists d | done].
Qed.

(** The loop stops at the first resource with a null pointer or a null
    deleter: the resources after it are not released. *)
Lemma delete_heap_resources_crash hs1 r hs2 :
  Forall releasable hs1 → ¬ releasable r →
  ∃ log, Program.delete_heap_resources (hs1 ++ r :: hs2) = (log, Crash)
       ∧ Forall2 released_by hs1 log.
Proof.
  intros Hall Hr. induction Hall as [|r1 hs1 [Hp [d Hd]] _ (log & Hlog & Hrel)]; simpl.
  - exists []. split; [|constructor].
    destruct (deleter r) as [d|] eqn:Hd; [|done].
    destruct (ptr r =? 0)%N eqn:Hp; [done|].
    exfalso. apply Hr. split; [by apply N.eqb_neq | by rewrite Hd].
  - rewrite Hd. apply N.eqb_neq in Hp. rewrite Hp, Hlog.
    exists (Delete d (ptr r1) :: log). split; [done|].
    constructor; [by exists d | done].
Qed.

Lemma released_pointer_registered hs log d q :
  Forall2 released_by hs log → Delete d q ∈ log → q ∈ ptr <$> hs.
Proof.
  induction 1 as [|r e hs log (d' & Hd' & ->) _ IH]; simpl.
  - by intros ?%elem_of_nil.
  - intros [Heq|Hin]%elem_of_cons.
    + injection Heq as _ ->. by left.
    + right. by apply IH.
Qed.

(** When no pointer is registered twice, no pointer is deleted twice. *)
Lemma released_pointers_distinct hs log :
  Forall2 released_by hs log →
  NoDup (ptr <$> hs) →
  NoDup log.
Proof.
  induction 1 as [|r e hs log (d & Hd & ->) Hrel IH]; simpl; intros Hnd.
  - constructor.
  - apply NoDup_cons in Hnd as [Hnotin Hnd]. constructor; [|by apply IH].
    intros Hin. apply Hnotin. by eapply released_pointer_registered.
Qed.
(** C6. With the resources registered as [add_memdelete_cleanup] leaves
    them (a deleter, and a pointer that is not null), [clear] returns, and
    what it releases is: one deleter call per registered resource, on that
    resource's pointer, in the order of registration; then the unlocking of
    every image the Program references; then one dropped reference per
    counted resource. No pointer is deleted twice unless it was registered
    twice. The cleared Program holds no resource, and clearing it again
    releases nothing. *)
Theorem clear_releases_each_resource_once p :
  Forall releasable (Program.heap_resources p) →
  ∃ deleted p',
    Program.clear p
    = (deleted ++ (UnlockImage <$> filter (λ r, is_image r = true) (Program.ref_resources p))
               ++ (Unreference <$> Program.ref_resources p), Ok p')
    ∧ Forall2 released_by (Program.heap_resources p) deleted
    ∧ (NoDup (ptr <$> Program.heap_resources p) → NoDup deleted)
    ∧ Program.heap_resources p' = []
    ∧ Program.ref_resources p' = []
    ∧ Program.clear p' = ([], Ok p').
Proof.
  intros Hall.
  destruct (delete_heap_resources_ok _ Hall) as (log & Hlog & Hrel).
  exists log. eexists. unfold Program.clear at 1. rewrite Hlog.
  unfold Program.unlock_images.
  split; [reflexivity|]. split; [done|].
  split; [by apply released_pointers_distinct|].
  split; [done|]. split; [done|].
  reflexivity.
Qed.

End ProgramClaims.

(** C6 on a Program with two registered objects and one image. *)
Lemma clear_releases_each_resource_once_witness :
  let img := {| resource := 9%N; is_image := true |} in
  let p : Program.t Z :=
    {| Program.operations := [x01];
       Program.dependency_graph := {| dependencies := []; nodes := [] |};
       Program.default_execution_map := [0];
       Program.heap_resources :=
         [ {| ptr := 100%N; deleter := Some (memdelete_of "ImageRangeGrid") |};
           {| ptr := 200%N; deleter := Some (memdelete_of "Curve") |} ];
       Program.ref_resources := [img];
       Program.buffer_specs := [];
       Program.xzy_start_op_address := 0;
       Program.xzy_start_execution_map_index := 0;
       Program.x_input_address := 0; Program.y_input_address := 1;
       Program.z_input_address := 2; Program.sdf_output_address := 3;
       Program.sdf_output_node_index := 0;
       Program.buffer_count := 4;
       Program.output_port_addresses := ∅;
       Program.compilation_result := {| success := true; node_id := -1; message := "" |} |} in
  ∃ p', Program.clear p
        = ([ Delete (memdelete_of "ImageRangeGrid") 100%N;
             Delete (memdelete_of "Curve") 200%N;
             UnlockImage img; Unreference img ], Ok p')
      ∧ Program.clear p' = ([], Ok p').
Proof.
  intros img p.
  destruct (clear_releases_each_resource_once p) as (deleted & p' & Hc & Hrel & _ & _ & _ & Hagain).
  - repeat constructor; simpl; try done; by eexists.
  - exists p'. split; [|exact Hagain].
    rewrite Hc. f_equal.
    simpl in Hrel.
    apply Forall2_cons_inv_l in Hrel as (e1 & l1 & (d1 & Hd1 & ->) & Hrel & ->).
    apply Forall2_cons_inv_l in Hrel as (e2 & l2 & (d2 & Hd2 & ->) & Hrel & ->).
    apply Forall2_nil_inv_l in Hrel as ->.
    simpl in Hd1, Hd2. injection Hd1 as <-. injection Hd2 as <-. reflexivity.
Defined.

(** ** The VoxelStringNames singleton *)

Section SingletonClaims.
Import VoxelStringNames.
Implicit Types (g : Globals).

Lemma memnew_not_null (h : gmap N t) : (memnew h).1 ≠ 0%N ∧ (memnew h).1 ∉ dom h.
Proof.
  unfold memnew; simpl.
  pose proof (is_fresh ({[0%N]} ∪ dom h)) as Hfresh.
  split; [intros Heq; apply Hfresh; rewrite Heq|intros Hin; apply Hfresh]; set_solver.
Qed.

Lemma create_singleton_exists g :
  g_singleton g ≠ 0%N → create_singleton g = Crash.
Proof.
  intros Hne. unfold create_singleton.
  apply N.eqb_neq in Hne. by rewrite Hne.
Qed.

Lemma destroy_singleton_missing g :
  g_singleton g = 0%N → destroy_singleton g = Crash.
Proof. intros Heq. unfold destroy_singleton. by rewrite Heq. Qed.

Lemma create_singleton_fresh g :
  g_singleton g = 0%N → instances g = ∅ →
  ∃ q, q ≠ 0%N
     ∧ create_singleton g = Ok {| g_singleton := q; instances := {[ q := constructor ]} |}.
Proof.
  intros Hnull Hempty. unfold create_singleton. rewrite Hnull, Hempty. simpl.
  exists (memnew ∅).1. split; [apply memnew_not_null|].
  unfold memnew; simpl. by rewrite insert_empty.
Qed.

Lemma destroy_singleton_alive q x :
  q ≠ 0%N →
  destroy_singleton {| g_singleton := q; instances := {[ q := x ]} |} = Ok initial.
Proof.
  intros Hq. unfold destroy_singleton; simpl.
  apply N.eqb_neq in Hq. rewrite Hq. simpl.
  unfold memdelete. rewrite lookup_singleton_eq. simpl.
  by rewrite delete_singleton_eq.
Qed.

Lemma at_most_one_null g : at_most_one g → g_singleton g = 0%N → g = initial.
Proof.
  intros [[_ Hempty] | [Hne _]] Hnull; [|done].
  destruct g as [q h]; simpl in *. by subst.
Qed.

(** The invariant holds in every state the lifecycle reaches. *)
Lemma call_keeps_at_most_one k g g' :
  at_most_one g → call k g = Ok g' → at_most_one g'.
Proof.
  intros Hinv Hcall. destruct k; simpl in Hcall.
  - destruct (decide (g_singleton g = 0%N)) as [Hnull|Hne].
    + pose proof (at_most_one_null g Hinv Hnull) as ->.
      destruct (create_singleton_fresh initial) as (q & Hq & Hc); [done..|].
      rewrite Hc in Hcall. injection Hcall as <-.
      right. simpl. split; [done | by eexists].
    + by rewrite create_singleton_exists in Hcall.
  - destruct Hinv as [[Hnull _] | [Hne [x Hx]]].
    + by rewrite destroy_singleton_missing in Hcall.
    + destruct g as [q h]; simpl in *. subst h.
      rewrite destroy_singleton_alive in Hcall by done.
      injection Hcall as <-. by left.
Qed.

Lemma run_keeps_at_most_one ks g g' :
  at_most_one g → run ks g = Ok g' → at_most_one g'.
Proof.
  revert g. induction ks as [|k ks IH]; simpl; intros g Hinv Hrun.
  - by injection Hrun as <-.
  - destruct (call k g) as [g1| |] eqn:Hcall; simpl in Hrun; try done.
    eapply IH; [|done]. by eapply call_keeps_at_most_one.
Qed.

(** C10. In every state the lifecycle can reach from the start, at most one
    instance exists. There, [create_singleton] aborts when the pointer is
    set and otherwise sets it to a new instance; [destroy_singleton] aborts
    when the pointer is null and otherwise frees the instance and resets
    the pointer; creating and then destroying gives back the initial state,
    with a null pointer and no instance. *)
Theorem singleton_lifecycle ks g :
  run ks initial = Ok g →
  at_most_one g
  ∧ (g_singleton g ≠ 0%N →
       create_singleton g = Crash
       ∧ ∃ g', destroy_singleton g = Ok g'
             ∧ g_singleton g' = 0%N ∧ instances g' = ∅)
  ∧ (g_singleton g = 0%N →
       destroy_singleton g = Crash
       ∧ ∃ g', create_singleton g = Ok g'
             ∧ g_singleton g' ≠ 0%N
             ∧ dom (instances g') = {[ g_singleton g' ]}
             ∧ destroy_singleton g' = Ok initial).
Proof.
  intros Hrun.
  assert (Hinv : at_most_one g).
  { eapply run_keeps_at_most_one; [|done]. by left. }
  split; [done|]. split.
  - intros Hne. split; [by apply create_singleton_exists|].
    destruct Hinv as [[Hnull _] | [_ [x Hx]]]; [done|].
    destruct g as [q h]; simpl in *. subst h.
    exists initial. by rewrite destroy_singleton_alive.
  - intros Hnull. split; [by apply destroy_singleton_missing|].
    pose proof (at_most_one_null g Hinv Hnull) as ->.
    destruct (create_singleton_fresh initial) as (q & Hq & Hc); [done..|].
    eexists. split; [exact Hc|]. simpl.
    split; [done|]. split; [by rewrite dom_singleton_L|].
    by apply destroy_singleton_alive.
Qed.
End SingletonClaims.

(** C10 after a create, a destroy and a second create: one instance, a
    further create aborts, and destroy goes back to the start. *)
Lemma singleton_lifecycle_witness :
  ∃ g, VoxelStringNames.run
         [VoxelStringNames.Create; VoxelStringNames.Destroy; VoxelStringNames.Create]
         VoxelStringNames.initial = Ok g
     ∧ VoxelStringNames.at_most_one g
     ∧ VoxelStringNames.create_singleton g = Crash.
Proof.
  destruct (create_singleton_fresh VoxelStringNames.initial) as (q & Hq & Hc); [done..|].
  assert (Hrun : VoxelStringNames.run
            [VoxelStringNames.Create; VoxelStringNames.Destroy; VoxelStringNames.Create]
            VoxelStringNames.initial
          = Ok {| VoxelStringNames.g_singleton := q;
                  VoxelStringNames.instances := {[ q := VoxelStringNames.constructor ]} |}).
  { cbn [VoxelStringNames.run VoxelStringNames.call].
    rewrite Hc. cbn [mbind Outcome_bind].
    rewrite destroy_singleton_alive by done. cbn [mbind Outcome_bind].
    rewrite Hc. reflexivity. }
  eexists. split; [exact Hrun|].
  destruct (singleton_lifecycle _ _ Hrun) as (Hinv & Hset & _).
  split; [exact Hinv|]. apply Hset. exact Hq.
Defined.

(** ** The compiler: a compile error leaves the Program cleared *)

Section CompilerClaims.
Context {float Variant : Type}.
Variable compile_func : nat → CompileFunc Variant.
Variable emit_operation : ProgramGraph.Node Variant → list byte → list byte.
Variable finish :
  list (ProgramGraph.Node Variant) → Program.t float → Program.t float * CompilationResult.
Implicit Types (p : Program.t float) (g : list (ProgramGraph.Node Variant)).
Implicit Types (c : CompileContext.t (ProgramGraph.Node Variant) Variant).

Local Abbreviation compile_node := (Compiler.compile_node compile_func emit_operation).
Local Abbreviation compile_nodes := (Compiler.compile_nodes compile_func emit_operation).
Local Abbreviation _compile := (Compiler._compile compile_func emit_operation finish).
Local Abbreviation compile := (Compiler.compile compile_func emit_operation finish).

(** Whatever [clear] returns is the empty Program. *)
Lemma clear_returns_empty p log p' :
  Program.clear p = (log, Ok p') → p' = Program.empty.
Proof.
  unfold Program.clear.
  destruct (Program.delete_heap_resources (Program.heap_resources p)) as [deleted [[]| |]];
    intros H; try done.
  by injection H as _ <-.
Qed.

Lemma clear_succeeds p :
  Forall releasable (Program.heap_resources p) →
  ∃ log, Program.clear p = (log, Ok Program.empty).
Proof.
  intros Hall.
  destruct (delete_heap_resources_ok _ Hall) as (deleted & Hlog & _).
  unfold Program.clear. rewrite Hlog. by eexists.
Qed.

Lemma empty_has_no_output :
  Program.sdf_output_address (Program.empty (float := float)) = (-1)%Z
  ∧ Program.has_output (Program.empty (float := float)) = false.
Proof. done. Qed.

(** A routine that registers objects only keeps the resource list
    releasable. *)
Lemma run_compile_func_resources (f : CompileFunc Variant) c c' :
  registers_objects f →
  Forall releasable (CompileContext._heap_resources c) →
  run_compile_func f c = Ok c' →
  Forall releasable (CompileContext._heap_resources c').
Proof.
  revert c. induction f as [|i k IH|blob k IH|T q k IH|msg k IH|k IH];
    simpl; intros c Hreg Hall Hrun.
  - by injection Hrun as <-.
  - destruct (CompileContext.get_param c i) as [v| |]; simpl in Hrun; try done.
    eapply IH; [apply Hreg|done|done].
  - destruct (CompileContext.set_params blob c) as [c1| |] eqn:Hset;
      simpl in Hrun; try done.
    eapply IH; [done| |done].
    unfold CompileContext.set_params in Hset.
    destruct (negb _); simpl in Hset; [done|]. by injection Hset as <-.
  - destruct Hreg as [Hq Hreg]. eapply IH; [done| |done]. simpl.
    apply Forall_app. split; [done|].
    constructor; [|constructor]. split; [done | by eexists].
  - apply (IH (CompileContext.make_error msg c)); [exact Hreg|exact Hall|exact Hrun].
  - eapply IH; [apply Hreg|exact Hall|exact Hrun].
Qed.

Lemma compile_node_resources node p p' r :
  (∀ kind, registers_objects (compile_func kind)) →
  Forall releasable (Program.heap_resources p) →
  compile_node node p = Ok (p', r) →
  Forall releasable (Program.heap_resources p').
Proof.
  intros Hcat Hall. unfold Compiler.compile_node.
  destruct (run_compile_func _ _) as [c'| |] eqn:Hrun; simpl; try done.
  intros Hnode.
  assert (Forall releasable (CompileContext._heap_resources c')) as Hc'.
  { eapply run_compile_func_resources; [apply Hcat| |exact Hrun]. done. }
  destruct (CompileContext.has_error c'); by injection Hnode as <- _.
Qed.

Lemma compile_nodes_resources g p p' r :
  (∀ kind, registers_objects (compile_func kind)) →
  Forall releasable (Program.heap_resources p) →
  compile_nodes g p = Ok (p', r) →
  Forall releasable (Program.heap_resources p').
Proof.
  intros Hcat. revert p. induction g as [|node g IH]; simpl; intros p Hall Hrun.
  - by injection Hrun as <- _.
  - destruct (compile_node node p) as [[p1 [failure|]]| |] eqn:Hnode;
      simpl in Hrun; try done.
    + injection Hrun as <- _. by eapply compile_node_resources.
    + eapply IH; [|done]. by eapply compile_node_resources.
Qed.

(** The loop stops at the first node whose routine reported an error. *)
Lemma compile_nodes_stops pre node post p p1 p2 failure :
  compile_nodes pre p = Ok (p1, None) →
  compile_node node p1 = Ok (p2, Some failure) →
  compile_nodes (pre ++ node :: post) p = Ok (p2, Some failure).
Proof.
  revert p. induction pre as [|n0 pre IH]; simpl; intros p Hpre Hnode.
  - injection Hpre as <-. by rewrite Hnode.
  - destruct (compile_node n0 p) as [[q [f0|]]| |]; simpl in *; try done.
    by apply IH.
Qed.

(** C3. When the compile routine of a node reports an error (the nodes before
    it compiled without one), [compile] stops there and returns the failed
    result with that node's id and the message, and the Program it leaves is
    the cleared one: every field reset, the SDF output address [-1] and
    [has_output] false. More generally a Program left by any failed [compile]
    is the cleared one. *)
Theorem compile_error_leaves_program_cleared g p :
  (∀ kind, registers_objects (compile_func kind)) →
  Forall releasable (Program.heap_resources p) →
  (∀ pre node post p1 c',
     g = pre ++ node :: post →
     compile_nodes pre Program.empty = Ok (p1, None) →
     run_compile_func (compile_func (ProgramGraph.type_id node))
       (CompileContext.new node (emit_operation node (Program.operations p1))
          (Program.heap_resources p1) (ProgramGraph.params node)) = Ok c' →
     CompileContext.has_error c' = true →
     ∃ log p',
       compile g p
       = (log, Ok ({| success := false;
                      node_id := ProgramGraph.id node;
                      message := CompileContext.get_error_message c' |}, p'))
       ∧ p' = Program.empty
       ∧ Program.sdf_output_address p' = (-1)%Z
       ∧ Program.has_output p' = false)
  ∧ (∀ log result p',
       compile g p = (log, Ok (result, p')) → success result = false →
       p' = Program.empty
       ∧ Program.sdf_output_address p' = (-1)%Z
       ∧ Program.has_output p' = false).
Proof.
  intros Hcat Hall. split.
  - intros pre node post p1 c' -> Hpre Hrun Herr.
    destruct (clear_succeeds p Hall) as (log0 & Hclear0).
    assert (Hnode : ∃ p2, compile_node node p1
              = Ok (p2, Some {| success := false;
                                node_id := ProgramGraph.id node;
                                message := CompileContext.get_error_message c' |})).
    { unfold Compiler.compile_node. rewrite Hrun. simpl. rewrite Herr. by eexists. }
    destruct Hnode as (p2 & Hnode).
    pose proof (compile_nodes_stops pre node post _ _ _ _ Hpre Hnode) as Hloop.
    assert (Hres2 : Forall releasable (Program.heap_resources p2)).
    { eapply compile_nodes_resources; [done| |exact Hloop]. constructor. }
    destruct (clear_succeeds p2 Hres2) as (log1 & Hclear1).
    exists (log0 ++ log1), Program.empty.
    unfold Compiler.compile, Compiler._compile.
    rewrite Hclear0, Hloop. simpl. rewrite Hclear1. done.
  - intros log result p' Hc Hfail.
    assert (p' = Program.empty) as ->; [|done].
    unfold Compiler.compile in Hc.
    destruct (Program.clear p) as [log0 [p0| |]]; try done.
    destruct (_compile _ _) as [[p1 r]| |]; try done.
    destruct (success r) eqn:Hs.
    + injection Hc as _ <- _. congruence.
    + destruct (Program.clear p1) as [log1 [p2| |]] eqn:Hclear1; try done.
      injection Hc as _ _ <-. by eapply clear_returns_empty.
Qed.
End CompilerClaims.

(** C3 on a graph of three nodes whose second node has a routine that
    reports an error. *)
Lemma compile_error_leaves_program_cleared_witness :
  let catalog := λ kind : nat,
    match kind with
    | 1 => compile_make_error "invalid parameter" compile_return
    | _ => compile_set_params [x2a] compile_return
    end in
  let emit := λ (node : ProgramGraph.Node unit) (stream : list byte),
    stream ++ [x00] in
  let finish := λ (g : list (ProgramGraph.Node unit)) (p : Program.t Z),
    (p, {| success := true; node_id := -1; message := "" |}) in
  let node := λ i kind, {| ProgramGraph.id := i; ProgramGraph.type_id := kind;
                           ProgramGraph.params := [] |} in
  ∃ log, Compiler.compile catalog emit finish [node 7%Z 0; node 8%Z 1; node 9%Z 0]
           Program.empty
         = (log, Ok ({| success := false; node_id := 8; message := "invalid parameter" |},
                     Program.empty)).
Proof.
  intros catalog emit finish node.
  destruct (compile_error_leaves_program_cleared catalog emit finish
              [node 7%Z 0; node 8%Z 1; node 9%Z 0] Program.empty) as [Herr _].
  - intros [|[|kind]]; simpl; done.
  - constructor.
  - edestruct (Herr [node 7%Z 0] (node 8%Z 1) [node 9%Z 0]) as (log & p' & Hc & -> & _).
    + reflexivity.
    + reflexivity.
    + reflexivity.
    + reflexivity.
    + exists log. exact Hc.
Defined.

(** ** Range analysis bounds every value of the box *)

Section RuntimeClaims.
Context {float : Type}.
Variable float_le : float → float → bool.
Variable float_of_int : Z → float.
Variable process_buffer_func : nat → ProcessBufferRoutine float.
Variable range_analysis_func : nat → RangeAnalysisFunc float.
Variable read_operation : list byte → nat → option (Operation * nat).
Implicit Types (bs : list (Buffer float)) (rs : list (Interval float)).
Implicit Types (b : Buffer float) (r : Interval float) (op : Operation).

Local Abbreviation contains := (Runtime.contains float_le).
Local Abbreviation holds := (Runtime.holds float_le).
Local Abbreviation process_operation := (Runtime.process_operation process_buffer_func).
Local Abbreviation analyze_operation := (Runtime.analyze_operation range_analysis_func).
Local Abbreviation process_operations := (Runtime.process_operations process_buffer_func).
Local Abbreviation analyze_operations := (Runtime.analyze_operations range_analysis_func).
Local Abbreviation execute := (Runtime.execute process_buffer_func read_operation).
Local Abbreviation sound_operation :=
  (Runtime.sound_operation float_le process_buffer_func range_analysis_func).
Local Abbreviation compiled := (Runtime.compiled read_operation).
Local Abbreviation prepared := (Runtime.prepared float_le).
Local Abbreviation generate_single :=
  (Runtime.generate_single process_buffer_func read_operation).
Local Abbreviation analyze_range :=
  (Runtime.analyze_range float_of_int range_analysis_func read_operation).
Local Abbreviation runs_default_order := Runtime.runs_default_order.
Local Abbreviation inside := (Runtime.inside float_le float_of_int).

(** *** Frames *)

Lemma buffers_frame_refl outputs bs : Runtime.buffers_frame outputs bs bs.
Proof.
  split; [done|]. split; [done|].
  intros a b Hb. exists b. repeat split; try done. eauto.
Qed.

Lemma buffers_frame_trans outputs bs1 bs2 bs3 :
  Runtime.buffers_frame outputs bs1 bs2 → Runtime.buffers_frame outputs bs2 bs3 →
  Runtime.buffers_frame outputs bs1 bs3.
Proof.
  intros (Hl1 & Ho1 & Hs1) (Hl2 & Ho2 & Hs2). split; [congruence|]. split.
  - intros a Ha. rewrite Ho2, Ho1; done.
  - intros a b Hb.
    destruct (Hs1 a b Hb) as (b2 & Hb2 & Hc2 & Hv2 & Hd2).
    destruct (Hs2 a b2 Hb2) as (b3 & Hb3 & Hc3 & Hv3 & Hd3).
    exists b3. repeat split; try congruence.
    intros arr Harr Hne. destruct (Hd2 arr Harr Hne) as (arr2 & Harr2 & Hne2).
    by apply (Hd3 arr2).
Qed.

(** Storing into the array of the buffer at [a]. *)
Lemma buffers_frame_store outputs bs a b arr :
  a ∈ outputs → bs !! a = Some b → arr ≠ [] →
  Runtime.buffers_frame outputs bs (<[a := Buffer_with_data b arr]> bs).
Proof.
  intros Ha Hb Hne. split; [by rewrite length_insert|]. split.
  - intros a' Ha'. apply list_lookup_insert_ne. by intros ->.
  - intros a' b' Hb'. destruct (decide (a = a')) as [<-|Hneq].
    + exists (Buffer_with_data b arr).
      rewrite list_lookup_insert_eq by (by eapply lookup_lt_Some).
      assert (b' = b) as -> by congruence.
      repeat split; try done. intros. by exists arr.
    + exists b'. rewrite list_lookup_insert_ne by done.
      repeat split; try done. eauto.
Qed.

Lemma writable_frame outputs bs bs' a :
  Runtime.buffers_frame outputs bs bs' → Runtime.writable bs a → Runtime.writable bs' a.
Proof.
  intros (_ & _ & Hs) (b & arr & Hb & Hc & Hd & Hne).
  destruct (Hs a b Hb) as (b' & Hb' & Hc' & _ & Hd').
  destruct (Hd' arr Hd Hne) as (arr' & Harr' & Hne').
  exists b', arr'. repeat split; try done. congruence.
Qed.

Lemma run_process_buffer_func_frame (f : ProcessBufferFunc float)
    (c c' : ProcessBufferContext.t float) :
  run_process_buffer_func f c = Ok c' →
  ProcessBufferContext.base c' = ProcessBufferContext.base c
  ∧ Runtime.buffers_frame (_ProcessContext._outputs (ProcessBufferContext.base c))
      (ProcessBufferContext._buffers c) (ProcessBufferContext._buffers c').
Proof.
  revert c. induction f as [|k IH|i k IH|i k IH|i k IH|i j v k IH]; simpl; intros c Hrun.
  - injection Hrun as <-. split; [done | apply buffers_frame_refl].
  - by eapply IH.
  - destruct (_ProcessContext.get_input_address _ i) as [a| |]; simpl in Hrun; try done.
    by eapply IH.
  - destruct (ProcessBufferContext.get_input c i) as [b| |]; simpl in Hrun; try done.
    by eapply IH.
  - destruct (ProcessBufferContext.get_output c i) as [b| |]; simpl in Hrun; try done.
    by eapply IH.
  - destruct (ProcessBufferContext.store_output c i j v) as [c1| |] eqn:Hstore;
      simpl in Hrun; try done.
    destruct (IH c1 Hrun) as [Hbase Hframe].
    unfold ProcessBufferContext.store_output, _ProcessContext.get_output_address,
      slice_at in Hstore.
    destruct (_ProcessContext._outputs (ProcessBufferContext.base c) !! i)
      as [a|] eqn:Ha; simpl in Hstore; [|done].
    destruct (ProcessBufferContext._buffers c !! a) as [b|] eqn:Hb; simpl in Hstore; [|done].
    destruct (data b) as [arr|] eqn:Hd; [|done].
    destruct (j <? length arr) eqn:Hj; [|done].
    injection Hstore as <-. simpl in *. split; [done|].
    eapply buffers_frame_trans; [|exact Hframe].
    apply buffers_frame_store; [by eapply list_elem_of_lookup_2 | done |].
    apply Nat.ltb_lt in Hj. intros Hnil.
    apply (f_equal length) in Hnil. rewrite length_insert in Hnil. simpl in Hnil. lia.
Qed.

(** A routine of the catalog that only reads and stores into output arrays
    runs as the routine it comes from. *)
Lemma run_routine_of (f : ProcessBufferFunc float) (c : ProcessBufferContext.t float) :
  run_process_buffer_routine (routine_of f) c = run_process_buffer_func f c.
Proof.
  revert c. induction f as [|k IH|i k IH|i k IH|i k IH|i j v k IH]; simpl; intros c.
  - done.
  - apply IH.
  - destruct (_ProcessContext.get_input_address _ i); simpl; [apply IH|done..].
  - destruct (ProcessBufferContext.get_input c i); simpl; [apply IH|done..].
  - destruct (ProcessBufferContext.get_output c i); simpl; [apply IH|done..].
  - destruct (ProcessBufferContext.store_output c i j v); simpl; [apply IH|done..].
Qed.

Lemma execute_frame_refl inputs outputs bs : Runtime.execute_frame inputs outputs bs bs.
Proof. done. Qed.

Lemma execute_frame_trans inputs outputs bs1 bs2 bs3 :
  Runtime.execute_frame inputs outputs bs1 bs2 →
  Runtime.execute_frame inputs outputs bs2 bs3 →
  Runtime.execute_frame inputs outputs bs1 bs3.
Proof.
  intros [Hl1 Ho1] [Hl2 Ho2]. split; [congruence|].
  intros a Hi Ho. rewrite Ho2, Ho1; done.
Qed.

(** Replacing the buffer at an input or output address. *)
Lemma execute_frame_insert inputs outputs bs a b :
  a ∈ inputs ∨ a ∈ outputs →
  Runtime.execute_frame inputs outputs bs (<[a := b]> bs).
Proof.
  intros Ha. split; [by rewrite length_insert|].
  intros a' Hi Ho. apply list_lookup_insert_ne. intros <-. by destruct Ha.
Qed.

(** Whatever a routine of the catalog does through its context, the buffers
    outside its declared inputs and outputs are as they were. *)
Lemma run_process_buffer_routine_frame (f : ProcessBufferRoutine float)
    (c c' : ProcessBufferContext.t float) :
  run_process_buffer_routine f c = Ok c' →
  ProcessBufferContext.base c' = ProcessBufferContext.base c
  ∧ Runtime.execute_frame
      (_ProcessContext._inputs (ProcessBufferContext.base c))
      (_ProcessContext._outputs (ProcessBufferContext.base c))
      (ProcessBufferContext._buffers c) (ProcessBufferContext._buffers c').
Proof.
  revert c.
  induction f as [|k IH|i k IH|i k IH|i j v k IH|i k IH|i b k IH|i j v k IH];
    simpl; intros c Hrun.
  - injection Hrun as <-. split; [done | apply execute_frame_refl].
  - exact (IH _ c Hrun).
  - destruct (_ProcessContext.get_input_address _ i) as [a| |]; simpl in Hrun; try done.
    exact (IH _ c Hrun).
  - destruct (ProcessBufferContext.get_input c i) as [b| |]; simpl in Hrun; try done.
    exact (IH _ c Hrun).
  - destruct (ProcessBufferContext.store_input c i j v) as [c1| |] eqn:Hstore;
      simpl in Hrun; try done.
    destruct (IH c1 Hrun) as [Hbase Hframe].
    unfold ProcessBufferContext.store_input, _ProcessContext.get_input_address,
      slice_at in Hstore.
    destruct (_ProcessContext._inputs (ProcessBufferContext.base c) !! i)
      as [a|] eqn:Ha; simpl in Hstore; [|done].
    destruct (ProcessBufferContext._buffers c !! a) as [b|] eqn:Hb; simpl in Hstore; [|done].
    destruct (data b) as [arr|] eqn:Hd; [|done].
    destruct (j <? length arr) eqn:Hj; [|done].
    injection Hstore as <-. simpl in *. split; [done|].
    eapply execute_frame_trans; [|exact Hframe].
    apply execute_frame_insert. left. by eapply list_elem_of_lookup_2.
  - destruct (ProcessBufferContext.get_output c i) as [b| |]; simpl in Hrun; try done.
    exact (IH _ c Hrun).
  - destruct (ProcessBufferContext.set_output c i b) as [c1| |] eqn:Hset;
      simpl in Hrun; try done.
    destruct (IH c1 Hrun) as [Hbase Hframe].
    unfold ProcessBufferContext.set_output, _ProcessContext.get_output_address,
      slice_at in Hset.
    destruct (_ProcessContext._outputs (ProcessBufferContext.base c) !! i)
      as [a|] eqn:Ha; simpl in Hset; [|done].
    destruct (ProcessBufferContext._buffers c !! a) as [b0|] eqn:Hb; simpl in Hset; [|done].
    injection Hset as <-. simpl in *. split; [done|].
    eapply execute_frame_trans; [|exact Hframe].
    apply execute_frame_insert. right. by eapply list_elem_of_lookup_2.
  - destruct (ProcessBufferContext.store_output c i j v) as [c1| |] eqn:Hstore;
      simpl in Hrun; try done.
    destruct (IH c1 Hrun) as [Hbase Hframe].
    unfold ProcessBufferContext.store_output, _ProcessContext.get_output_address,
      slice_at in Hstore.
    destruct (_ProcessContext._outputs (ProcessBufferContext.base c) !! i)
      as [a|] eqn:Ha; simpl in Hstore; [|done].
    destruct (ProcessBufferContext._buffers c !! a) as [b|] eqn:Hb; simpl in Hstore; [|done].
    destruct (data b) as [arr|] eqn:Hd; [|done].
    destruct (j <? length arr) eqn:Hj; [|done].
    injection Hstore as <-. simpl in *. split; [done|].
    eapply execute_frame_trans; [|exact Hframe].
    apply execute_frame_insert. right. by eapply list_elem_of_lookup_2.
Qed.

Lemma process_operation_frame op bs bs' :
  process_operation op bs = Ok bs' →
  Runtime.execute_frame (op_inputs op) (op_outputs op) bs bs'.
Proof.
  unfold Runtime.process_operation.
  destruct (run_process_buffer_routine _ _) as [c| |] eqn:Hrun; simpl; try done.
  intros [= <-]. by destruct (run_process_buffer_routine_frame _ _ _ Hrun) as [_ H].
Qed.

Lemma ranges_frame_refl outputs rs : Runtime.ranges_frame outputs rs rs.
Proof. done. Qed.

Lemma ranges_frame_trans outputs rs1 rs2 rs3 :
  Runtime.ranges_frame outputs rs1 rs2 → Runtime.ranges_frame outputs rs2 rs3 →
  Runtime.ranges_frame outputs rs1 rs3.
Proof.
  intros [Hl1 Ho1] [Hl2 Ho2]. split; [congruence|].
  intros a Ha. rewrite Ho2, Ho1; done.
Qed.

Lemma users_frame_refl bs : Runtime.users_frame bs bs.
Proof. split; [done|]. intros a b Hb. by exists b. Qed.

Lemma users_frame_trans bs1 bs2 bs3 :
  Runtime.users_frame bs1 bs2 → Runtime.users_frame bs2 bs3 → Runtime.users_frame bs1 bs3.
Proof.
  intros [Hl1 Hs1] [Hl2 Hs2]. split; [congruence|].
  intros a b Hb.
  destruct (Hs1 a b Hb) as (b2 & Hb2 & ? & ? & ? & ?).
  destruct (Hs2 a b2 Hb2) as (b3 & Hb3 & ? & ? & ? & ?).
  exists b3. repeat split; congruence.
Qed.

Lemma run_range_analysis_func_frame (f : RangeAnalysisFunc float)
    (c c' : RangeAnalysisContext.t float) :
  run_range_analysis_func f c = Ok c' →
  RangeAnalysisContext.base c' = RangeAnalysisContext.base c
  ∧ Runtime.ranges_frame (_ProcessContext._outputs (RangeAnalysisContext.base c))
      (RangeAnalysisContext._ranges c) (RangeAnalysisContext._ranges c')
  ∧ Runtime.users_frame (RangeAnalysisContext._buffers c) (RangeAnalysisContext._buffers c').
Proof.
  revert c. induction f as [|k IH|i k IH|i k IH|i r k IH|i k IH]; simpl; intros c Hrun.
  - injection Hrun as <-. split; [done|]. split; [done | apply users_frame_refl].
  - by eapply IH.
  - destruct (_ProcessContext.get_input_address _ i) as [a| |]; simpl in Hrun; try done.
    by eapply IH.
  - destruct (RangeAnalysisContext.get_input c i) as [r| |]; simpl in Hrun; try done.
    by eapply IH.
  - destruct (RangeAnalysisContext.set_output c i r) as [c1| |] eqn:Hset;
      simpl in Hrun; try done.
    destruct (IH c1 Hrun) as (Hbase & Hranges & Husers).
    unfold RangeAnalysisContext.set_output, _ProcessContext.get_output_address,
      slice_at in Hset.
    destruct (_ProcessContext._outputs (RangeAnalysisContext.base c) !! i)
      as [a|] eqn:Ha; simpl in Hset; [|done].
    destruct (RangeAnalysisContext._ranges c !! a) as [r0|] eqn:Hr; simpl in Hset; [|done].
    injection Hset as <-. simpl in *. split; [done|]. split; [|done].
    eapply ranges_frame_trans; [|exact Hranges]. split; [by rewrite length_insert|].
    intros a' Ha'. apply list_lookup_insert_ne. intros ->.
    apply Ha'. by eapply list_elem_of_lookup_2.
  - destruct (RangeAnalysisContext.ignore_input c i) as [c1| |] eqn:Hign;
      simpl in Hrun; try done.
    destruct (IH c1 Hrun) as (Hbase & Hranges & Husers).
    unfold RangeAnalysisContext.ignore_input, _ProcessContext.get_input_address,
      slice_at in Hign.
    destruct (_ProcessContext._inputs (RangeAnalysisContext.base c) !! i)
      as [a|] eqn:Ha; simpl in Hign; [|done].
    destruct (RangeAnalysisContext._buffers c !! a) as [b0|] eqn:Hb; simpl in Hign; [|done].
    injection Hign as <-. simpl in *. split; [done|]. split; [done|].
    eapply users_frame_trans; [|exact Husers]. split; [by rewrite length_insert|].
    intros a' b' Hb'. destruct (decide (a = a')) as [<-|Hneq].
    + exists (Buffer_decrement_users b0).
      rewrite list_lookup_insert_eq by (by eapply lookup_lt_Some).
      assert (b' = b0) as -> by congruence. done.
    + exists b'. by rewrite list_lookup_insert_ne.
Qed.

Lemma analyze_operation_frame op rs bs rs' bs' :
  analyze_operation op (rs, bs) = Ok (rs', bs') →
  Runtime.ranges_frame (op_outputs op) rs rs' ∧ Runtime.users_frame bs bs'.
Proof.
  unfold Runtime.analyze_operation.
  destruct (run_range_analysis_func _ _) as [c| |] eqn:Hrun; simpl; try done.
  intros [= <- <-]. by destruct (run_range_analysis_func_frame _ _ _ Hrun) as (_ & ? & ?).
Qed.
(** *** The two passes, side by side *)

Lemma holds_frame outputs bs bs' rs rs' a :
  Runtime.buffers_frame outputs bs bs' → Runtime.ranges_frame outputs rs rs' →
  a ∉ outputs → holds bs rs a → holds bs' rs' a.
Proof.
  intros (_ & Hb & _) (_ & Hr) Ha (b & r & v & ? & ? & ? & ?).
  exists b, r, v. rewrite Hb, Hr; done.
Qed.

Lemma holds_unchanged bs bs' rs rs' a :
  bs' !! a = bs !! a → rs' !! a = rs !! a → holds bs rs a → holds bs' rs' a.
Proof.
  intros Hb Hr (b & r & v & ? & ? & ? & ?).
  exists b, r, v. rewrite Hb, Hr; done.
Qed.

(** Running the execute routines and the range routines of the same
    operations, from buffers and intervals that agree on what is available,
    ends with buffers and intervals that agree on what is available then. *)
Lemma passes_agree owned (ops : list Operation) :
  ∀ avail bs rs bs_r,
    Forall sound_operation ops →
    Runtime.dataflow owned avail ops →
    length rs = length bs → length bs_r = length bs →
    (∀ a b, bs !! a = Some b → size b = 1) →
    (∀ a, a ∈ avail → holds bs rs a) →
    (∀ a, a ∈ owned → Runtime.writable bs a) →
    ∃ bs' rs' bs_r',
      process_operations ops bs = Ok bs'
      ∧ analyze_operations ops (rs, bs_r) = Ok (rs', bs_r')
      ∧ (∀ a, a ∈ avail ∨ (∃ op, op ∈ ops ∧ a ∈ op_outputs op) → holds bs' rs' a)
      ∧ Runtime.ranges_frame owned rs rs'
      ∧ Runtime.users_frame bs_r bs_r'.
Proof.
  induction ops as [|op ops IH]; simpl;
    intros avail bs rs bs_r Hsound Hflow Hlr Hlb Hsize Hholds Hwr.
  - exists bs, rs, bs_r. split; [done|]. split; [done|]. split; [|split; [done|]].
    + intros a [Ha | (op & Hop & _)]; [by apply Hholds | by apply elem_of_nil in Hop].
    + apply users_frame_refl.
  - apply Forall_cons in Hsound as [Hop Hsound].
    destruct Hflow as (Hin & Hout & Hflow).
    destruct (Hop bs bs_r rs Hlr Hlb Hsize)
      as (bs1 & [rs1 bs_r1] & Hp & Ha & Houts & Hins & Hwr1 & Hsize1).
    { intros a Ha. apply Hholds, Hin, Ha. }
    { intros a Ha. apply Hwr, Hout, Ha. }
    pose proof (process_operation_frame _ _ _ Hp) as [Hbl Hbo].
    destruct (analyze_operation_frame _ _ _ _ _ Ha) as [[Hrl Hro] Huf].
    destruct (IH (op_outputs op ++ avail) bs1 rs1 bs_r1 Hsound Hflow)
      as (bs' & rs' & bs_r' & Hps & Has & Hholds' & Hrf' & Huf'); try done.
    + congruence.
    + destruct Huf as [-> _]. congruence.
    + intros a [Ha1|Ha2]%elem_of_app; [by apply Houts|].
      destruct (decide (a ∈ op_outputs op)) as [Hao|Hao]; [by apply Houts|].
      destruct (decide (a ∈ op_inputs op)) as [Hai|Hai]; [by apply Hins|].
      eapply holds_unchanged; [by apply Hbo | by apply Hro | by apply Hholds].
    + intros a Ha'. by apply Hwr1, Hwr.
    + exists bs', rs', bs_r'. rewrite Hp, Ha. simpl.
      split; [done|]. split; [done|]. split; [|split].
      * intros a [Ha'|(op' & [->|Hop']%elem_of_cons & Ha')]; apply Hholds'.
        -- left. apply elem_of_app. by right.
        -- left. apply elem_of_app. by left.
        -- right. by exists op'.
      * destruct Hrf' as [Hl2 Ho2]. split; [congruence|].
        intros a Ha'. rewrite Ho2 by done. apply Hro.
        intros Hao. apply Ha', Hout, Hao.
      * by eapply users_frame_trans.
Qed.

(** *** The default order is the stream *)

Lemma operations_from_read fuel stream pc table :
  Runtime.operations_from read_operation fuel stream pc = Some table →
  Forall (λ e, ∃ n, read_operation stream e.1 = Some (e.2, n)) table.
Proof.
  revert pc table. induction fuel as [|fuel IH]; simpl; intros pc table.
  - destruct (length stream <=? pc); [|done]. intros [= <-]. constructor.
  - destruct (length stream <=? pc); [intros [= <-]; constructor|].
    destruct (read_operation stream pc) as [[op n]|] eqn:Hread; [|done].
    destruct (Runtime.operations_from _ fuel stream (pc + 1 + n)) as [rest|] eqn:Hrest;
      simpl; [|done].
    intros [= <-]. constructor; [by exists n | by eapply IH].
Qed.

(** The walk over the stream never runs out of steps: every operation takes
    at least its opid, so any number of steps from [length stream - pc] on
    gives the same table. *)
Lemma operations_from_fuel fuel1 fuel2 stream pc :
  length stream - pc ≤ fuel1 → length stream - pc ≤ fuel2 →
  Runtime.operations_from read_operation fuel1 stream pc
  = Runtime.operations_from read_operation fuel2 stream pc.
Proof.
  revert fuel2 pc. induction fuel1 as [|fuel1 IH]; intros fuel2 pc H1 H2; simpl.
  - destruct (Nat.leb_spec (length stream) pc) as [Hle|Hgt]; [|lia].
    destruct fuel2; simpl; apply Nat.leb_le in Hle; by rewrite Hle.
  - destruct (Nat.leb_spec (length stream) pc) as [Hle|Hgt].
    + destruct fuel2; simpl; apply Nat.leb_le in Hle; by rewrite Hle.
    + destruct fuel2 as [|fuel2]; [lia|]. simpl.
      apply Nat.leb_gt in Hgt as Hb. rewrite Hb.
      destruct (read_operation stream pc) as [[op n]|]; [|done].
      rewrite (IH fuel2 (pc + 1 + n)) by lia. done.
Qed.

Lemma execute_table stream (table : list (nat * Operation)) bs :
  Forall (λ e, ∃ n, read_operation stream e.1 = Some (e.2, n)) table →
  execute stream table.*1 bs = process_operations table.*2 bs.
Proof.
  intros Hall. revert bs. induction Hall as [|[a op] table [n Hread] _ IH]; simpl; intros bs.
  - done.
  - simpl in Hread. rewrite Hread.
    destruct (process_operation op bs) as [bs1| |]; simpl; [apply IH|done..].
Qed.
(** *** Binding the inputs *)

Lemma index_of_nonneg (address : Z) :
  (0 ≤ address)%Z → Runtime.index_of address = Ok (Z.to_nat address).
Proof.
  intros H. unfold Runtime.index_of.
  by destruct (Z.ltb_spec address 0); [lia|].
Qed.

Lemma buffers_frame_mono outputs outputs' bs bs' :
  (∀ a, a ∈ outputs → a ∈ outputs') →
  Runtime.buffers_frame outputs bs bs' → Runtime.buffers_frame outputs' bs bs'.
Proof.
  intros Hsub (Hl & Ho & Hs). split; [done|]. split; [|done].
  intros a Ha. apply Ho. intros Hin. by apply Ha, Hsub.
Qed.

Lemma ranges_frame_mono outputs outputs' rs rs' :
  (∀ a, a ∈ outputs → a ∈ outputs') →
  Runtime.ranges_frame outputs rs rs' → Runtime.ranges_frame outputs' rs rs'.
Proof.
  intros Hsub (Hl & Ho). split; [done|].
  intros a Ha. apply Ho. intros Hin. by apply Ha, Hsub.
Qed.

Lemma not_constant_frame outputs bs bs' a :
  Runtime.buffers_frame outputs bs bs' →
  (∃ b, bs !! a = Some b ∧ is_constant b = false) →
  ∃ b', bs' !! a = Some b' ∧ is_constant b' = false.
Proof.
  intros (_ & _ & Hs) (b & Hb & Hc).
  destruct (Hs a b Hb) as (b' & Hb' & Hc' & _). exists b'. split; [done | congruence].
Qed.

(** Binding one input to a coordinate, and giving it the interval of the box
    on that axis, makes the two agree at its address and keeps them in
    agreement elsewhere. *)
(** Binding one input to a coordinate, and giving it the interval of the box
    on that axis, makes the two agree at its address and keeps them in
    agreement elsewhere; the available counts stay as they are. *)
Lemma bind_agrees (known : list nat) (address : Z) (v : float) r bs rs :
  (0 ≤ address)%Z → length rs = length bs →
  (∃ b, bs !! Z.to_nat address = Some b ∧ is_constant b = false) →
  contains r v = true →
  (∀ a, a ∈ known → holds bs rs a) →
  ∃ bs' rs',
    Runtime.bind_input address v bs = Ok bs'
    ∧ Runtime.set_input_range address r rs = Ok rs'
    ∧ length rs' = length bs'
    ∧ (∀ a, a ∈ Z.to_nat address :: known → holds bs' rs' a)
    ∧ Runtime.buffers_frame [Z.to_nat address] bs bs'
    ∧ Runtime.ranges_frame [Z.to_nat address] rs rs'
    ∧ (∀ n, (∀ a b, bs !! a = Some b → size b = n) →
            ∀ a b, bs' !! a = Some b → size b = n).
Proof.
  intros Hpos Hlen (b & Hb & Hc) Hin Hholds.
  assert (Hlt : Z.to_nat address < length bs) by (by eapply lookup_lt_Some).
  destruct (lookup_lt_is_Some_2 rs (Z.to_nat address)) as [r0 Hr0]; [lia|].
  unfold Runtime.bind_input, Runtime.set_input_range.
  rewrite (index_of_nonneg _ Hpos). simpl. unfold slice_at. rewrite Hb, Hr0. simpl.
  eexists _, _. split; [done|]. split; [done|].
  assert (Hbf : Runtime.buffers_frame [Z.to_nat address] bs
            (<[Z.to_nat address := Buffer_with_data b [v]]> bs)).
  { apply buffers_frame_store; [by left | done | done]. }
  assert (Hrf : Runtime.ranges_frame [Z.to_nat address] rs (<[Z.to_nat address := r]> rs)).
  { split; [by rewrite length_insert|]. intros a Ha.
    apply list_lookup_insert_ne. intros <-. apply Ha. by left. }
  split; [by rewrite !length_insert|]. split; [|split; [done|split; [done|]]].
  - intros a Ha. destruct (decide (a = Z.to_nat address)) as [->|Hne].
    + exists (Buffer_with_data b [v]), r, v.
      rewrite !list_lookup_insert_eq by lia.
      repeat split; try done. unfold Runtime.buffer_value. simpl. by rewrite Hc.
    + apply elem_of_cons in Ha as [?|Ha]; [done|].
      eapply holds_frame; [exact Hbf | exact Hrf | | by apply Hholds].
      by intros ->%list_elem_of_singleton.
  - intros n Hsize a b' Hb'.
    destruct (decide (a = Z.to_nat address)) as [->|Hne].
    + rewrite list_lookup_insert_eq in Hb' by lia. injection Hb' as <-.
      simpl. by apply (Hsize _ _ Hb).
    + rewrite list_lookup_insert_ne in Hb' by done. by apply (Hsize _ _ Hb').
Qed.

(** *** Constants and owned buffers of a prepared State *)

Lemma elem_of_constant_addresses (p : Program.t float) a :
  a ∈ Runtime.constant_addresses p ↔
  ∃ spec, spec ∈ Program.buffer_specs p ∧ bs_address spec = a ∧ bs_is_constant spec = true.
Proof.
  unfold Runtime.constant_addresses. rewrite list_elem_of_fmap. split.
  - intros (spec & -> & [Hc Hin]%list_elem_of_filter). by exists spec.
  - intros (spec & Hin & <- & Hc). exists spec. split; [done|].
    by apply list_elem_of_filter.
Qed.

Lemma elem_of_owned_addresses (p : Program.t float) a :
  a ∈ Runtime.owned_addresses p ↔
  ∃ spec, spec ∈ Program.buffer_specs p ∧ bs_address spec = a
        ∧ bs_is_constant spec = false ∧ bs_is_binding spec = false.
Proof.
  unfold Runtime.owned_addresses. rewrite list_elem_of_fmap. split.
  - intros (spec & -> & [[Hc Hb] Hin]%list_elem_of_filter). by exists spec.
  - intros (spec & Hin & <- & Hc & Hb). exists spec. split; [done|].
    by apply list_elem_of_filter.
Qed.

Lemma prepared_not_constant (p : Program.t float) s a :
  prepared p s →
  (∃ spec, spec ∈ Program.buffer_specs p ∧ bs_address spec = a ∧ bs_is_constant spec = false) →
  (∃ b, State.buffers s !! a = Some b ∧ is_constant b = false)
  ∧ a ∉ Runtime.constant_addresses p.
Proof.
  intros Hprep (spec & Hin & <- & Hc).
  destruct (Runtime.prepared_specs _ _ _ Hprep spec Hin) as (b & Hb & Hcb & _).
  split; [exists b; split; [done | congruence]|].
  intros (spec' & Hin' & Haddr & Hc')%elem_of_constant_addresses.
  destruct (Runtime.prepared_specs _ _ _ Hprep spec' Hin') as (b' & Hb' & Hcb' & _).
  rewrite Haddr in Hb'. congruence.
Qed.

Lemma prepared_owned_writable (p : Program.t float) s a :
  prepared p s → a ∈ Runtime.owned_addresses p →
  Runtime.writable (State.buffers s) a ∧ a ∉ Runtime.constant_addresses p.
Proof.
  intros Hprep (spec & Hin & <- & Hc & Hbind)%elem_of_owned_addresses.
  split.
  - destruct (Runtime.prepared_specs _ _ _ Hprep spec Hin) as (b & Hb & Hcb & _ & Harr).
    destruct (Harr Hc Hbind) as (arr & Hd & Hne).
    exists b, arr. repeat split; try done. congruence.
  - eapply prepared_not_constant; [done|]. by exists spec.
Qed.

(** The intervals of one prepared State contain the constants held by
    another State prepared for the same Program. *)
Lemma prepared_constants_agree (p : Program.t float) s s_v a :
  prepared p s → prepared p s_v → a ∈ Runtime.constant_addresses p →
  holds (State.buffers s_v) (State.ranges s) a.
Proof.
  intros Hs Hv (spec & Hin & <- & Hc)%elem_of_constant_addresses.
  destruct (Runtime.prepared_specs _ _ _ Hs spec Hin) as (b0 & _ & _ & Hconst & _).
  destruct (Hconst Hc) as (_ & r & Hr & Hcontains).
  destruct (Runtime.prepared_specs _ _ _ Hv spec Hin) as (b & Hb & Hcb & Hconst' & _).
  destruct (Hconst' Hc) as (Hvalue & _).
  exists b, r, (bs_constant_value spec). repeat split; try done.
  unfold Runtime.buffer_value. rewrite Hcb, Hc. by rewrite Hvalue.
Qed.
(** *** Soundness *)

(** The available counts of the buffers are not touched by the analysis. *)
Lemma users_frame_sizes bs bs' n :
  Runtime.users_frame bs bs' →
  (∀ a b, bs !! a = Some b → size b = n) →
  ∀ a b, bs' !! a = Some b → size b = n.
Proof.
  intros [Hl Hs] Hsize a b' Hb'.
  destruct (lookup_lt_is_Some_2 bs a) as [b Hb].
  { rewrite <- Hl. by eapply lookup_lt_Some. }
  destruct (Hs a b Hb) as (b'' & Hb'' & _ & _ & _ & Hsz).
  assert (b'' = b') as -> by congruence.
  rewrite Hsz. by apply (Hsize a).
Qed.

(** The analysis run on one prepared State, and a single point generated on
    another (or the same) prepared State of available count 1 that runs the
    default order. *)
Lemma analysis_bounds_generation (p : Program.t float) table
    (s s_v : State.t float) min_pos max_pos position use_execution_map :
  compiled p table → prepared p s → prepared p s_v →
  State.buffer_size s_v = 1 →
  runs_default_order p s_v use_execution_map →
  Forall sound_operation table.*2 →
  inside min_pos max_pos position →
  ∃ s1 r s2 v,
    analyze_range p s min_pos max_pos = Ok (s1, r)
    ∧ prepared p s1
    ∧ State.buffer_size s1 = State.buffer_size s
    ∧ State.execution_map s1 = State.execution_map s
    ∧ generate_single p s_v position use_execution_map = Ok (s2, v)
    ∧ contains r v = true.
Proof.
  intros [Htable Horder Hinputs [Hout_pos Hout] Hflow] Hs Hv Hone Hmap Hsound Hinside.
  destruct min_pos as [[x0 y0] z0], max_pos as [[x1 y1] z1], position as [[x y] z].
  destruct Hinside as (Hx & Hy & Hz).
  set (X := Program.x_input_address p) in *.
  set (Y := Program.y_input_address p) in *.
  set (Z' := Program.z_input_address p) in *.
  set (O := Program.sdf_output_address p) in *.
  destruct (Hinputs X) as [HX HXspec]; [rewrite !elem_of_cons; auto|].
  destruct (Hinputs Y) as [HY HYspec]; [rewrite !elem_of_cons; auto|].
  destruct (Hinputs Z') as [HZ HZspec]; [rewrite !elem_of_cons; auto|].
  clear Hinputs.
  assert (Hlen : length (State.ranges s) = length (State.buffers s_v)).
  { rewrite (Runtime.prepared_ranges _ _ _ Hs). by rewrite (Runtime.prepared_buffers _ _ _ Hv). }
  assert (Hsz0 : ∀ a b, State.buffers s_v !! a = Some b → size b = 1).
  { intros a b Hb. rewrite <- Hone. by apply (Runtime.prepared_sizes _ _ _ Hv a). }
  (* the three inputs *)
  destruct (bind_agrees (Runtime.constant_addresses p) X x
              {| min := float_of_int x0; max := float_of_int x1 |}
              (State.buffers s_v) (State.ranges s))
    as (bs1 & rs1 & Hb1 & Hr1 & Hlen1 & Hholds1 & Hbf1 & Hrf1 & Hsz1); try done.
  { by apply (prepared_not_constant p s_v). }
  { intros a Ha. by eapply prepared_constants_agree. }
  destruct (bind_agrees (Z.to_nat X :: Runtime.constant_addresses p) Y y
              {| min := float_of_int y0; max := float_of_int y1 |} bs1 rs1)
    as (bs2 & rs2 & Hb2 & Hr2 & Hlen2 & Hholds2 & Hbf2 & Hrf2 & Hsz2); try done.
  { eapply not_constant_frame; [exact Hbf1|]. by apply (prepared_not_constant p s_v). }
  destruct (bind_agrees (Z.to_nat Y :: Z.to_nat X :: Runtime.constant_addresses p) Z' z
              {| min := float_of_int z0; max := float_of_int z1 |} bs2 rs2)
    as (bs3 & rs3 & Hb3 & Hr3 & Hlen3 & Hholds3 & Hbf3 & Hrf3 & Hsz3); try done.
  { eapply not_constant_frame; [exact Hbf2|].
    eapply not_constant_frame; [exact Hbf1|]. by apply (prepared_not_constant p s_v). }
  assert (Hbf : Runtime.buffers_frame [Z.to_nat X; Z.to_nat Y; Z.to_nat Z']
            (State.buffers s_v) bs3).
  { eapply buffers_frame_trans; [|eapply buffers_frame_trans].
    - eapply buffers_frame_mono; [|exact Hbf1]. intros a. rewrite !elem_of_cons. tauto.
    - eapply buffers_frame_mono; [|exact Hbf2]. intros a. rewrite !elem_of_cons. tauto.
    - eapply buffers_frame_mono; [|exact Hbf3]. intros a. rewrite !elem_of_cons. tauto. }
  assert (Hrf : Runtime.ranges_frame [Z.to_nat X; Z.to_nat Y; Z.to_nat Z']
            (State.ranges s) rs3).
  { eapply ranges_frame_trans; [|eapply ranges_frame_trans].
    - eapply ranges_frame_mono; [|exact Hrf1]. intros a. rewrite !elem_of_cons. tauto.
    - eapply ranges_frame_mono; [|exact Hrf2]. intros a. rewrite !elem_of_cons. tauto.
    - eapply ranges_frame_mono; [|exact Hrf3]. intros a. rewrite !elem_of_cons. tauto. }
  (* the operations *)
  destruct (passes_agree (Runtime.owned_addresses p) table.*2
              ([Z.to_nat X; Z.to_nat Y; Z.to_nat Z'] ++ Runtime.constant_addresses p)
              bs3 rs3 (State.buffers s))
    as (bs' & rs' & bs_r' & Hps & Has & Hholds & Hrf' & Huf); try done.
  { destruct Hbf as [-> _]. rewrite (Runtime.prepared_buffers _ _ _ Hs).
    by rewrite (Runtime.prepared_buffers _ _ _ Hv). }
  { by apply Hsz3, Hsz2, Hsz1. }
  { intros a Ha. apply Hholds3.
    rewrite elem_of_app, !elem_of_cons in Ha. rewrite !elem_of_cons.
    rewrite elem_of_nil in Ha. tauto. }
  { intros a Ha. eapply writable_frame; [exact Hbf|].
    by apply (prepared_owned_writable p s_v). }
  (* the output *)
  destruct (Hholds (Z.to_nat O)) as (b & r & v & Hb & Hr & Hval & Hcontains).
  { destruct Hout as [Hout|(op_out & Hop_out & Hout)]; [by left|]. right. by exists op_out. }
  assert (Hrun : (if use_execution_map then State.execution_map s_v
                  else Program.default_execution_map p) = table.*1).
  { destruct use_execution_map; [|done]. by rewrite Hmap. }
  eexists _, r, _, v. split; [|split; [|split; [|split; [|split; [|exact Hcontains]]]]].
  - unfold Runtime.analyze_range. fold X Y Z' O.
    rewrite Hr1. simpl. rewrite Hr2. simpl. rewrite Hr3. simpl.
    rewrite Htable, Has. simpl.
    rewrite (index_of_nonneg _ Hout_pos). simpl.
    unfold slice_at. rewrite Hr. simpl. reflexivity.
  - constructor; simpl.
    + destruct Huf as [-> _]. apply (Runtime.prepared_buffers _ _ _ Hs).
    + destruct Hrf' as [-> _]. destruct Hrf as [-> _].
      apply (Runtime.prepared_ranges _ _ _ Hs).
    + eapply users_frame_sizes; [exact Huf|]. apply (Runtime.prepared_sizes _ _ _ Hs).
    + intros spec Hspec.
      destruct (Runtime.prepared_specs _ _ _ Hs spec Hspec)
        as (b0 & Hb0 & Hc0 & Hconst0 & Harr0).
      destruct Huf as [_ Huf].
      destruct (Huf _ _ Hb0) as (b0' & Hb0' & Hd' & Hc' & Hv' & _).
      exists b0'. split; [done|]. split; [congruence|]. split.
      * intros Hc. destruct (Hconst0 Hc) as (Hvalue & r0 & Hr0 & Hcont0).
        split; [congruence|]. exists r0. split; [|done].
        assert (Hca : bs_address spec ∈ Runtime.constant_addresses p).
        { apply elem_of_constant_addresses. by exists spec. }
        destruct Hrf' as [_ Ho']. destruct Hrf as [_ Ho].
        rewrite Ho', Ho; [done| |].
        -- intros Hin.
           assert (bs_address spec ∉ Runtime.constant_addresses p); [|done].
           apply elem_of_cons in Hin as [->|Hin];
             [by apply (prepared_not_constant p s)|].
           apply elem_of_cons in Hin as [->|Hin];
             [by apply (prepared_not_constant p s)|].
           apply list_elem_of_singleton in Hin as ->.
           by apply (prepared_not_constant p s).
        -- intros Hin. by destruct (prepared_owned_writable p s _ Hs Hin).
      * intros Hc Hbind. rewrite Hd'. by apply Harr0.
  - reflexivity.
  - reflexivity.
  - unfold Runtime.generate_single. fold X Y Z' O.
    rewrite Hb1. simpl. rewrite Hb2. simpl. rewrite Hb3. simpl.
    rewrite Hrun.
    rewrite (execute_table _ table bs3)
      by (by eapply operations_from_read).
    rewrite Hps. simpl.
    rewrite (index_of_nonneg _ Hout_pos). simpl.
    unfold slice_at. rewrite Hb. simpl. rewrite Hval. reflexivity.
Qed.

End RuntimeClaims.

(** ** The instance [output = X + Y] *)

Section AddGraphFacts.
Import AddGraph.

Lemma add_graph_compiled :
  Runtime.compiled read_operation program [(0, add_operation)].
Proof.
  constructor.
  - reflexivity.
  - reflexivity.
  - intros address Ha. simpl in Ha. rewrite !elem_of_cons, elem_of_nil in Ha.
    destruct Ha as [->|[->|[->|[]]]]; (split; [lia|]).
    + exists (binding_spec 0). repeat split. by left.
    + exists (binding_spec 1). repeat split. right. by left.
    + exists (binding_spec 2). repeat split. right. right. by left.
  - split; [simpl; lia|]. right. exists add_operation. split; by left.
  - simpl. split; [|split; [|done]].
    + intros a. rewrite !elem_of_cons, elem_of_nil. intros [->|[->|[]]]; simpl.
      * by left.
      * right. by left.
    + intros a ->%list_elem_of_singleton. apply elem_of_owned_addresses.
      exists (owned_spec 3). split; [|done]. simpl. do 3 right. by left.
Qed.

(** A State is prepared whatever execution map it holds. *)
Lemma add_graph_prepared_buffers (s : State.t Z) :
  State.ranges s = State.ranges state → State.buffers s = State.buffers state →
  State.buffer_size s = 1 →
  Runtime.prepared Z.leb program s.
Proof.
  intros Hr Hb Hsz. constructor; rewrite ?Hr, ?Hb, ?Hsz; [reflexivity..| |].
  - intros a b. simpl.
    destruct a as [|[|[|[|a]]]]; simpl; intros [= <-]; reflexivity.
  - intros spec Hspec. simpl in Hspec. rewrite !elem_of_cons, elem_of_nil in Hspec.
    destruct Hspec as [->|[->|[->|[->|[]]]]]; simpl.
    + exists unbound. repeat split; done.
    + exists unbound. repeat split; done.
    + exists unbound. repeat split; done.
    + eexists. repeat split; try done. intros _ _. by eexists.
Qed.

Lemma add_graph_prepared : Runtime.prepared Z.leb program state.
Proof. by apply add_graph_prepared_buffers. Qed.

Lemma add_graph_prepared_pruned : Runtime.prepared Z.leb program pruned_state.
Proof. by apply add_graph_prepared_buffers. Qed.

Lemma element_first (b : Buffer Z) v :
  Runtime.buffer_value b = Some v → element b 0 = v.
Proof.
  unfold element, Runtime.buffer_value.
  destruct (is_constant b); [congruence|].
  destruct (data b) as [[|? ?]|]; simpl; congruence.
Qed.

(** The sum of two intervals contains the sum of what they contain. *)
Lemma add_operation_sound :
  Runtime.sound_operation Z.leb (λ _, add_routine) (λ _, add_range) add_operation.
Proof.
  intros bs bs_r rs Hlr Hlb Hsize Hin Hout.
  destruct (Hin 0) as (b0 & r0 & v0 & Hb0 & Hr0 & Hv0 & Hc0); [by left|].
  destruct (Hin 1) as (b1 & r1 & v1 & Hb1 & Hr1 & Hv1 & Hc1); [right; by left|].
  destruct (Hout 3) as (b3 & arr & Hb3 & Hconst3 & Hd3 & Hne); [by left|].
  assert (Hlt : 3 < length rs).
  { rewrite Hlr. by eapply lookup_lt_Some. }
  destruct (lookup_lt_is_Some_2 rs 3 Hlt) as [r3 Hr3].
  destruct arr as [|w arr]; [done|].
  pose proof (element_first _ _ Hv0) as Hf0.
  pose proof (element_first _ _ Hv1) as Hf1.
  pose proof (Hsize _ _ Hb3) as Hsize3.
  assert (Hframe : Runtime.buffers_frame [3] bs
            (<[3 := Buffer_with_data b3 (<[0 := (v0 + v1)%Z]> (w :: arr))]> bs)).
  { apply buffers_frame_store; [by left | done | done]. }
  exists (<[3 := Buffer_with_data b3 (<[0 := (v0 + v1)%Z]> (w :: arr))]> bs),
    (<[3 := {| min := (min r0 + min r1)%Z; max := (max r0 + max r1)%Z |}]> rs, bs_r).
  split; [|split; [|split; [|split; [|split]]]].
  - unfold Runtime.process_operation. simpl.
    unfold ProcessBufferContext.get_input, ProcessBufferContext.get_output,
      _ProcessContext.get_input_address, _ProcessContext.get_output_address, slice_at.
    simpl. rewrite Hb0. simpl. rewrite Hb1. simpl. rewrite Hb3. simpl.
    rewrite Hsize3. simpl.
    unfold ProcessBufferContext.store_output,
      _ProcessContext.get_output_address, slice_at.
    simpl. rewrite Hb3. simpl. rewrite Hd3. simpl. by rewrite Hf0, Hf1.
  - unfold Runtime.analyze_operation. simpl.
    unfold RangeAnalysisContext.get_input, RangeAnalysisContext.set_output,
      _ProcessContext.get_input_address, _ProcessContext.get_output_address, slice_at.
    simpl. rewrite Hr0. simpl. rewrite Hr1. simpl. rewrite Hr3. simpl. reflexivity.
  - intros a ->%list_elem_of_singleton. simpl.
    eexists _, _, (v0 + v1)%Z.
    rewrite !list_lookup_insert_eq by (try lia; by eapply lookup_lt_Some).
    split; [done|]. split; [done|]. split.
    + unfold Runtime.buffer_value. simpl. by rewrite Hconst3.
    + unfold Runtime.contains in *. simpl.
      apply andb_true_iff in Hc0 as [?%Z.leb_le ?%Z.leb_le].
      apply andb_true_iff in Hc1 as [?%Z.leb_le ?%Z.leb_le].
      apply andb_true_iff. split; apply Z.leb_le; lia.
  - intros a Ha. simpl in Ha. rewrite !elem_of_cons, elem_of_nil in Ha. simpl.
    destruct Ha as [->|[->|[]]].
    + exists b0, r0, v0. by rewrite !list_lookup_insert_ne.
    + exists b1, r1, v1. by rewrite !list_lookup_insert_ne.
  - intros a Ha. by eapply writable_frame.
  - intros a b Hb. destruct (decide (a = 3)) as [->|Hne3].
    + rewrite list_lookup_insert_eq in Hb by (by eapply lookup_lt_Some).
      by injection Hb as <-.
    + rewrite list_lookup_insert_ne in Hb by done. by apply (Hsize a).
Qed.
End AddGraphFacts.



(** A Program without operations is a compiled Program too: the graph
    [output = X], whose output is the buffer of the input X. Over the box
    from (1, 1, 1) to (4, 4, 4) the analysis returns [1, 4], and the
    generation at (2, 3, 1) returns 2. *)
Lemma pass_through_compiled :
  Runtime.compiled AddGraph.read_operation AddGraph.pass_through_program [].
Proof.
  constructor.
  - reflexivity.
  - reflexivity.
  - intros address Ha. simpl in Ha. rewrite !elem_of_cons, elem_of_nil in Ha.
    destruct Ha as [->|[->|[->|[]]]]; (split; [lia|]).
    + exists (AddGraph.binding_spec 0). repeat split. by left.
    + exists (AddGraph.binding_spec 1). repeat split. right. by left.
    + exists (AddGraph.binding_spec 2). repeat split. right. right. by left.
  - split; [simpl; lia|]. left. simpl. by left.
  - done.
Qed.

Lemma pass_through_run :
  ∃ s1, Runtime.analyze_range id (λ _, AddGraph.add_range) AddGraph.read_operation
          AddGraph.pass_through_program AddGraph.pass_through_state
          (1, 1, 1)%Z (4, 4, 4)%Z
        = Ok (s1, {| min := 1%Z; max := 4%Z |})
      ∧ ∃ s2, Runtime.generate_single (λ _, AddGraph.add_routine) AddGraph.read_operation
                AddGraph.pass_through_program s1 (2, 3, 1)%Z true = Ok (s2, 2%Z).
Proof. eexists. split; [reflexivity|]. eexists. reflexivity. Qed.

(** The values of the run on the default order: the interval is [0, 8] and
    the value is 5. *)
Lemma add_graph_run :
  ∃ s1, Runtime.analyze_range id (λ _, AddGraph.add_range) AddGraph.read_operation
          AddGraph.program AddGraph.state (0, 0, 0)%Z (4, 4, 4)%Z
        = Ok (s1, {| min := 0%Z; max := 8%Z |})
      ∧ ∃ s2, Runtime.generate_single (λ _, AddGraph.add_routine) AddGraph.read_operation
                AddGraph.program s1 (2, 3, 0)%Z true = Ok (s2, 5%Z).
Proof. eexists. split; [reflexivity|]. eexists. reflexivity. Qed.

(* ===================================================================== *)
(** * Part III. Further properties of the header's code *)
(* ===================================================================== *)

(** ** CompileContext: what a compile routine can and cannot do *)

Section CompileContextProperties.
Context {Node Variant : Type}.
Implicit Types (c : CompileContext.t Node Variant) (blob : list byte).
Implicit Types (f : CompileFunc Variant).

(** X1. [get_param] returns a parameter exactly for the indices below the
    number of parameters, aborts exactly for the indices above it, and is
    undefined exactly at the index equal to it. *)
Theorem get_param_outcomes c i :
  (∀ v, CompileContext.get_param c i = Ok v ↔ CompileContext._params c !! i = Some v)
  ∧ (CompileContext.get_param c i = Crash ↔ length (CompileContext._params c) < i)
  ∧ (CompileContext.get_param c i = Undefined ↔ i = length (CompileContext._params c)).
Proof.
  unfold CompileContext.get_param, vector_at.
  destruct (Nat.ltb_spec (length (CompileContext._params c)) i) as [Hlt|Hge]; simpl.
  - rewrite lookup_ge_None_2 by lia.
    split; [|split]; [intros v|..]; split; try done; lia.
  - destruct (CompileContext._params c !! i) as [w|] eqn:Hw.
    + apply lookup_lt_Some in Hw as Hlt.
      split; [|split]; [intros v|..]; split; try done; try lia; congruence.
    + apply lookup_ge_None_1 in Hw.
      split; [|split]; [intros v|..]; split; try done; lia.
Qed.

(** X2. [set_params] returns exactly when the recorded offset is the end of
    the stream, whatever the blob; it aborts otherwise and is never
    undefined. When it returns, the stream has grown by the blob and by
    nothing else, and no other field of the context has changed. *)
Theorem set_params_outcomes c blob :
  ((∃ c1, CompileContext.set_params blob c = Ok c1)
     ↔ CompileContext._offset c = length (CompileContext._program c))
  ∧ (CompileContext.set_params blob c = Crash
     ↔ CompileContext._offset c ≠ length (CompileContext._program c))
  ∧ (∀ c1, CompileContext.set_params blob c = Ok c1 →
       CompileContext._program c1 = CompileContext._program c ++ blob
       ∧ CompileContext._node c1 = CompileContext._node c
       ∧ CompileContext._offset c1 = CompileContext._offset c
       ∧ CompileContext._heap_resources c1 = CompileContext._heap_resources c
       ∧ CompileContext._params c1 = CompileContext._params c
       ∧ CompileContext._has_error c1 = CompileContext._has_error c
       ∧ CompileContext._error_message c1 = CompileContext._error_message c).
Proof.
  destruct (decide (CompileContext._offset c = length (CompileContext._program c)))
    as [Heq|Hne].
  - rewrite (set_params_appends c blob Heq).
    split; [|split].
    + split; [done | by eexists].
    + split; [done | intros; done].
    + intros c1 [= <-]. done.
  - rewrite (set_params_stale c blob Hne).
    split; [|split].
    + split; [by intros [c1 ?] | done].
    + done.
    + intros c1 ?. done.
Qed.

(** X3. Whatever a compile routine calls, when it returns it has left the
    node, the recorded offset and the declared parameters as they were, and
    it has only appended: the old stream is a prefix of the new one, and so
    is the old list of registered resources. *)
Theorem compile_routine_only_appends f c c' :
  run_compile_func f c = Ok c' →
  CompileContext._node c' = CompileContext._node c
  ∧ CompileContext._offset c' = CompileContext._offset c
  ∧ CompileContext._params c' = CompileContext._params c
  ∧ CompileContext._program c `prefix_of` CompileContext._program c'
  ∧ CompileContext._heap_resources c `prefix_of` CompileContext._heap_resources c'.
Proof.
  revert c. induction f as [|i k IH|blob k IH|T q k IH|msg k IH|k IH];
    simpl; intros c Hrun.
  - injection Hrun as <-. done.
  - destruct (CompileContext.get_param c i) as [v| |]; simpl in Hrun; try done.
    by apply (IH v c).
  - destruct (CompileContext.set_params blob c) as [c1| |] eqn:Hset;
      simpl in Hrun; try done.
    destruct (IH c1 Hrun) as (Hn & Ho & Hp & Hprog & Hres).
    destruct (decide (CompileContext._offset c = length (CompileContext._program c)))
      as [Heq|Hne].
    + rewrite (set_params_appends c blob Heq) in Hset. injection Hset as <-.
      simpl in *. repeat split; try done.
      etrans; [|exact Hprog]. by apply prefix_app_r.
    + by rewrite (set_params_stale c blob Hne) in Hset.
  - destruct (IH _ Hrun) as (Hn & Ho & Hp & Hprog & Hres). simpl in *.
    repeat split; try done.
    etrans; [|exact Hres]. by apply prefix_app_r.
  - destruct (IH _ Hrun) as (Hn & Ho & Hp & Hprog & Hres). simpl in *. done.
  - exact (IH _ c Hrun).
Qed.

(** X4. The error flag is never reset: a context with an error still has it
    after any routine, and a context without an error after the routine has
    the message it started with. *)
Theorem error_flag_is_sticky f c c' :
  run_compile_func f c = Ok c' →
  (CompileContext.has_error c = true → CompileContext.has_error c' = true)
  ∧ (CompileContext.has_error c' = false →
     CompileContext.has_error c = false
     ∧ CompileContext.get_error_message c' = CompileContext.get_error_message c).
Proof.
  revert c. induction f as [|i k IH|blob k IH|T q k IH|msg k IH|k IH];
    simpl; intros c Hrun.
  - injection Hrun as <-. done.
  - destruct (CompileContext.get_param c i) as [v| |]; simpl in Hrun; try done.
    by apply (IH v c).
  - destruct (CompileContext.set_params blob c) as [c1| |] eqn:Hset;
      simpl in Hrun; try done.
    destruct (IH c1 Hrun) as [Hkeep Hnone].
    unfold CompileContext.set_params in Hset.
    destruct (negb _); simpl in Hset; [done|]. injection Hset as <-.
    done.
  - by apply (IH (CompileContext.add_memdelete_cleanup T q c)).
  - destruct (IH _ Hrun) as [Hkeep Hnone]. split.
    + intros _. by apply Hkeep.
    + intros Hfalse. rewrite Hkeep in Hfalse; done.
  - exact (IH _ c Hrun).
Qed.
End CompileContextProperties.

(** X3 on a routine that reads a parameter, registers an object and sets
    its parameters. *)
Lemma compile_routine_only_appends_witness :
  let f := compile_get_param 0 (λ v : nat,
           compile_add_memdelete_cleanup "Curve" 100%N
             (compile_set_params [x07] compile_return)) in
  let c := CompileContext.new tt [xaa] [] [5] in
  ∃ c', run_compile_func f c = Ok c'
      ∧ CompileContext._params c' = [5]
      ∧ [xaa] `prefix_of` CompileContext._program c'.
Proof.
  intros f c. eexists. split; [reflexivity|].
  destruct (compile_routine_only_appends f c _ eq_refl) as (_ & _ & Hp & Hprog & _).
  split; [exact Hp | exact Hprog].
Defined.

(** X4 on a routine that reports an error and goes on. *)
Lemma error_flag_is_sticky_witness :
  let f := compile_set_params [x01] compile_return in
  let c := CompileContext.make_error "bad" (CompileContext.new tt [] [] ([] : list nat)) in
  ∃ c', run_compile_func f c = Ok c' ∧ CompileContext.has_error c' = true.
Proof.
  intros f c. eexists. split; [reflexivity|].
  destruct (error_flag_is_sticky f c _ eq_refl) as [Hkeep _].
  apply Hkeep. reflexivity.
Defined.

(** X1 on a node with two parameters. *)
Lemma get_param_outcomes_witness :
  let c := CompileContext.new tt [] [] [10; 20] in
  CompileContext.get_param c 1 = Ok 20
  ∧ CompileContext.get_param c 2 = Undefined
  ∧ CompileContext.get_param c 3 = Crash.
Proof.
  intros c. split; [|split].
  - apply (get_param_outcomes c 1). reflexivity.
  - apply (get_param_outcomes c 2). reflexivity.
  - apply (get_param_outcomes c 3). simpl. lia.
Defined.

(** X2 on a fresh context, and on the context it leaves. *)
Lemma set_params_outcomes_witness :
  let c := CompileContext.new tt [xaa] [] ([] : list nat) in
  ∃ c1, CompileContext.set_params [x01; x02] c = Ok c1
      ∧ CompileContext._program c1 = [xaa; x01; x02]
      ∧ CompileContext.set_params [x03] c1 = Crash.
Proof.
  intros c.
  destruct (set_params_outcomes c [x01; x02]) as (Hret & _ & Hgrow).
  destruct Hret as [_ Hret]. destruct (Hret eq_refl) as [c1 Hc1].
  exists c1. split; [exact Hc1|].
  destruct (Hgrow c1 Hc1) as (Hprog & _ & Hoff & _).
  split; [exact Hprog|].
  apply (set_params_outcomes c1 [x03]).
  rewrite Hoff, Hprog. simpl. lia.
Defined.

(** ** Program: resources that cannot be released, and the round trip from
    registration to release *)

Section ProgramProperties.
Context {float : Type}.
Implicit Types (p : Program.t float) (hs : list HeapResource).

(** X5. [clear] aborts at the first resource with a null deleter or a null
    pointer. The resources before it have been deleted, one call each and in
    order; nothing else has happened: the resources after it are not
    deleted, no image is unlocked and no reference is dropped. *)
Theorem clear_aborts_at_unreleasable_resource p hs1 r hs2 :
  Program.heap_resources p = hs1 ++ r :: hs2 →
  Forall releasable hs1 → ¬ releasable r →
  ∃ deleted, Program.clear p = (deleted, Crash) ∧ Forall2 released_by hs1 deleted.
Proof.
  intros Hhs Hall Hr.
  destruct (delete_heap_resources_crash hs1 r hs2 Hall Hr) as (log & Hlog & Hrel).
  exists log. split; [|done].
  unfold Program.clear. by rewrite Hhs, Hlog.
Qed.

(** The resources a context holds after a series of registrations. *)
Lemma registrations_heap_resources {Node Variant : Type}
    (c : CompileContext.t Node Variant) (regs : list (string * N)) :
  CompileContext._heap_resources
    (foldl (λ c reg, CompileContext.add_memdelete_cleanup reg.1 reg.2 c) c regs)
  = CompileContext._heap_resources c
    ++ ((λ reg, {| ptr := reg.2; deleter := Some (memdelete_of reg.1) |}) <$> regs).
Proof.
  revert c. induction regs as [|reg regs IH]; intros c; simpl.
  - by rewrite app_nil_r.
  - rewrite IH. simpl. by rewrite <- app_assoc.
Qed.

Lemma delete_heap_resources_app hs1 hs2 log1 log2 o :
  Program.delete_heap_resources hs1 = (log1, Ok tt) →
  Program.delete_heap_resources hs2 = (log2, o) →
  Program.delete_heap_resources (hs1 ++ hs2) = (log1 ++ log2, o).
Proof.
  revert log1. induction hs1 as [|r hs1 IH]; simpl; intros log1 H1 H2.
  - by injection H1 as <-.
  - destruct (deleter r) as [d|]; [|done].
    destruct (ptr r =? 0)%N; [done|].
    destruct (Program.delete_heap_resources hs1) as [l [[]| |]] eqn:Hrec; try done.
    injection H1 as <-. by rewrite (IH l eq_refl H2).
Qed.

Lemma delete_registered (regs : list (string * N)) :
  Forall (λ reg, reg.2 ≠ 0%N) regs →
  Program.delete_heap_resources
    ((λ reg, {| ptr := reg.2; deleter := Some (memdelete_of reg.1) |}) <$> regs)
  = ((λ reg, Delete (memdelete_of reg.1) reg.2) <$> regs, Ok tt).
Proof.
  induction 1 as [|reg regs Hq _ IH]; [done|].
  rewrite !fmap_cons. cbn [Program.delete_heap_resources deleter ptr].
  apply N.eqb_neq in Hq. by rewrite Hq, IH.
Qed.

(** X6. From registration to release: when a Program holds the resources of
    a context on which objects have been registered with
    [add_memdelete_cleanup], none through a null pointer, [clear] deletes
    what the context held before and then every registered object, each
    with the deleter of the type it was registered with, on its own pointer,
    in the order of registration. *)
Theorem registered_objects_are_deleted_in_order {Node Variant : Type}
    (c : CompileContext.t Node Variant) (regs : list (string * N)) p :
  Forall releasable (CompileContext._heap_resources c) →
  Forall (λ reg, reg.2 ≠ 0%N) regs →
  Program.heap_resources p
  = CompileContext._heap_resources
      (foldl (λ c reg, CompileContext.add_memdelete_cleanup reg.1 reg.2 c) c regs) →
  ∃ before p',
    Forall2 released_by (CompileContext._heap_resources c) before
    ∧ Program.clear p
      = (before ++ ((λ reg, Delete (memdelete_of reg.1) reg.2) <$> regs)
                ++ Program.unlock_images p
                ++ (Unreference <$> Program.ref_resources p), Ok p').
Proof.
  intros Hold Hregs Hhs.
  destruct (delete_heap_resources_ok _ Hold) as (before & Hbefore & Hrel).
  exists before. eexists. split; [done|].
  unfold Program.clear.
  rewrite Hhs, registrations_heap_resources.
  rewrite (delete_heap_resources_app _ _ _ _ _ Hbefore (delete_registered regs Hregs)).
  by rewrite <- app_assoc.
Qed.
End ProgramProperties.

(** X5 on a Program whose second resource was registered through a null
    pointer: the first object is deleted, the third is not. *)
Lemma clear_aborts_at_unreleasable_resource_witness :
  let c := foldl (λ c (reg : string * N),
                    CompileContext.add_memdelete_cleanup reg.1 reg.2 c)
             (CompileContext.new tt [] [] ([] : list nat))
             [("Curve", 100%N); ("Image", 0%N); ("Noise", 300%N)] in
  let p : Program.t Z :=
    {| Program.operations := [];
       Program.dependency_graph := {| dependencies := []; nodes := [] |};
       Program.default_execution_map := [];
       Program.heap_resources := CompileContext._heap_resources c;
       Program.ref_resources := [ {| resource := 1%N; is_image := true |} ];
       Program.buffer_specs := [];
       Program.xzy_start_op_address := 0;
       Program.xzy_start_execution_map_index := 0;
       Program.x_input_address := -1; Program.y_input_address := -1;
       Program.z_input_address := -1; Program.sdf_output_address := -1;
       Program.sdf_output_node_index := -1;
       Program.buffer_count := 0;
       Program.output_port_addresses := ∅;
       Program.compilation_result := CompilationResult_default |} in
  Program.clear p = ([Delete (memdelete_of "Curve") 100%N], Crash).
Proof.
  intros c p.
  destruct (clear_aborts_at_unreleasable_resource p
              [ {| ptr := 100%N; deleter := Some (memdelete_of "Curve") |} ]
              {| ptr := 0%N; deleter := Some (memdelete_of "Image") |}
              [ {| ptr := 300%N; deleter := Some (memdelete_of "Noise") |} ])
    as (deleted & Hc & Hrel).
  - reflexivity.
  - constructor; [|constructor]. split; [done | by eexists].
  - intros [Hp _]. by apply Hp.
  - rewrite Hc. f_equal.
    apply Forall2_cons_inv_l in Hrel as (e1 & l1 & (d1 & Hd1 & ->) & Hrel & ->).
    apply Forall2_nil_inv_l in Hrel as ->.
    simpl in Hd1. by injection Hd1 as <-.
Defined.

(** X6 on two objects registered on a fresh context. *)
Lemma registered_objects_are_deleted_in_order_witness :
  let regs := [("Curve", 100%N); ("Noise", 300%N)] in
  let c := CompileContext.new tt [] [] ([] : list nat) in
  let p : Program.t Z :=
    {| Program.operations := [];
       Program.dependency_graph := {| dependencies := []; nodes := [] |};
       Program.default_execution_map := [];
       Program.heap_resources :=
         CompileContext._heap_resources
           (foldl (λ c (reg : string * N),
                     CompileContext.add_memdelete_cleanup reg.1 reg.2 c) c regs);
       Program.ref_resources := [];
       Program.buffer_specs := [];
       Program.xzy_start_op_address := 0;
       Program.xzy_start_execution_map_index := 0;
       Program.x_input_address := -1; Program.y_input_address := -1;
       Program.z_input_address := -1; Program.sdf_output_address := -1;
       Program.sdf_output_node_index := -1;
       Program.buffer_count := 0;
       Program.output_port_addresses := ∅;
       Program.compilation_result := CompilationResult_default |} in
  ∃ p', Program.clear p
        = ([Delete (memdelete_of "Curve") 100%N; Delete (memdelete_of "Noise") 300%N],
           Ok p').
Proof.
  intros regs c p.
  destruct (registered_objects_are_deleted_in_order c regs p)
    as (before & p' & Hrel & Hc).
  - constructor.
  - repeat constructor; done.
  - reflexivity.
  - exists p'. rewrite Hc. simpl in Hrel.
    apply Forall2_nil_inv_l in Hrel as ->. reflexivity.
Defined.

(** ** State: after [clear] *)

Section StateProperties.
Context {float : Type}.
Implicit Types (s : State.t float) (b : Buffer float).

(** X7. After [clear], [get_buffer] and [get_range] abort at every address
    and a second [clear] frees nothing and changes nothing; the execution
    map and the debug execution map are not reset by [clear]. *)
Theorem state_clear_aftermath s :
  (∀ address, State.get_buffer (State.clear s).1 address = Crash
            ∧ State.get_range (State.clear s).1 address = Crash)
  ∧ State.clear (State.clear s).1 = ((State.clear s).1, [])
  ∧ State.execution_map (State.clear s).1 = State.execution_map s
  ∧ State.get_debug_execution_map (State.clear s).1 = State.get_debug_execution_map s
  ∧ State.execution_map_xzy_start_index (State.clear s).1
    = State.execution_map_xzy_start_index s.
Proof.
  split; [|done].
  intros address. split.
  - apply get_buffer_crash. simpl. lia.
  - apply get_range_crash. simpl. lia.
Qed.

Lemma free_buffers_length (bs : list (Buffer float)) k :
  length (State.free_buffers k bs)
  = length (filter (λ b, is_Some (data b) ∧ is_binding b = false) bs).
Proof.
  revert k. induction bs as [|b bs IH]; intros k; [done|].
  rewrite filter_cons. cbn [State.free_buffers].
  destruct (decide (is_Some (data b) ∧ is_binding b = false)) as [[[arr Hd] Hb]|Hn].
  - rewrite Hd, Hb. simpl. by rewrite IH.
  - destruct (data b) as [arr|] eqn:Hd; [|apply IH].
    destruct (is_binding b) eqn:Hb; simpl; [apply IH|].
    exfalso. apply Hn. split; [by eexists | done].
Qed.

(** X8. [clear] frees nothing else: every call of [memfree] is for the array
    of a buffer of the State that is not a binding, so a null [data] is
    never passed to [memfree]; and there are as many calls as there are
    buffers with an array that are not bindings. *)
Theorem clear_frees_nothing_else s :
  (∀ f, f ∈ (State.clear s).2 →
     ∃ b, State.buffers s !! freed_address f = Some b
        ∧ data b = Some (freed_array f) ∧ is_binding b = false)
  ∧ length (State.clear s).2
    = length (filter (λ b, is_Some (data b) ∧ is_binding b = false) (State.buffers s)).
Proof.
  split.
  - intros f Hf. simpl in Hf.
    apply free_buffers_spec in Hf as (j & b & Hb & Hd & Hbind & Hj).
    simpl in Hj. rewrite Hj. by exists b.
  - apply free_buffers_length.
Qed.
End StateProperties.

(** X8 on a State with an owned array, a constant without array and a bound
    binding: one call of [memfree]. *)
Lemma clear_frees_nothing_else_witness :
  let owned := {| data := Some [1%Z]; size := 1; capacity := 1; constant_value := 0%Z;
                  is_constant := false; is_binding := false; local_users_count := 1%Z |} in
  let const := {| data := None; size := 1; capacity := 1; constant_value := 5%Z;
                  is_constant := true; is_binding := false; local_users_count := 1%Z |} in
  let bound := {| data := Some [3%Z]; size := 1; capacity := 1; constant_value := 0%Z;
                  is_constant := false; is_binding := true; local_users_count := 1%Z |} in
  let s := {| State.ranges := []; State.buffers := [const; owned; bound];
              State.execution_map := [0]; State.debug_execution_map := [7%Z];
              State.execution_map_xzy_start_index := 0;
              State.buffer_size := 1; State.buffer_capacity := 1 |} in
  length (State.clear s).2 = 1
  ∧ ∀ f, f ∈ (State.clear s).2 → freed_address f = 1.
Proof.
  intros owned const bound s.
  destruct (clear_frees_nothing_else s) as [Honly Hcount].
  split; [rewrite Hcount; reflexivity|].
  intros f Hf. destruct (Honly f Hf) as (b & Hb & Hd & Hbind).
  destruct (freed_address f) as [|[|[|n]]]; simpl in Hb; try done.
  - injection Hb as <-. done.
  - injection Hb as <-. done.
Defined.

(** ** The contexts of the range and execute routines *)

Section ContextProperties.
Context {float : Type}.
Implicit Types (c : RangeAnalysisContext.t float) (r : Interval float).
Implicit Types (b : Buffer float).

(** X9. [set_output(i, r)] stores [r] at the address of output [i] and
    nowhere else: the other intervals, the buffers and the address lists
    are as before. An input declared at the same address reads [r] from
    then on. *)
Theorem set_output_stores_one_interval c i r a :
  _ProcessContext._outputs (RangeAnalysisContext.base c) !! i = Some a →
  a < length (RangeAnalysisContext._ranges c) →
  ∃ c', RangeAnalysisContext.set_output c i r = Ok c'
      ∧ RangeAnalysisContext._ranges c' !! a = Some r
      ∧ (∀ a', a' ≠ a →
           RangeAnalysisContext._ranges c' !! a' = RangeAnalysisContext._ranges c !! a')
      ∧ length (RangeAnalysisContext._ranges c') = length (RangeAnalysisContext._ranges c)
      ∧ RangeAnalysisContext._buffers c' = RangeAnalysisContext._buffers c
      ∧ RangeAnalysisContext.base c' = RangeAnalysisContext.base c
      ∧ (∀ j, _ProcessContext._inputs (RangeAnalysisContext.base c) !! j = Some a →
           RangeAnalysisContext.get_input c' j = Ok r).
Proof.
  intros Ha Hlt.
  destruct (lookup_lt_is_Some_2 _ _ Hlt) as [r0 Hr0].
  unfold RangeAnalysisContext.set_output, _ProcessContext.get_output_address, slice_at.
  rewrite Ha. simpl. rewrite Hr0. simpl.
  eexists. split; [done|]. simpl.
  split; [by apply list_lookup_insert_eq|].
  split; [intros a' Hne; by apply list_lookup_insert_ne|].
  split; [by rewrite length_insert|]. split; [done|]. split; [done|].
  intros j Hj.
  unfold RangeAnalysisContext.get_input, _ProcessContext.get_input_address, slice_at.
  simpl. rewrite Hj. simpl. by rewrite list_lookup_insert_eq.
Qed.

(** X10. [ignore_input(i)] takes one from the count of users of the buffer
    at the address of input [i], with the wrap-around of an [unsigned int]:
    a count of zero becomes [2^32 - 1]. Nothing else changes: the other
    fields of that buffer, the other buffers and the intervals. *)
Theorem ignore_input_decrements_with_wrap c i a b :
  _ProcessContext._inputs (RangeAnalysisContext.base c) !! i = Some a →
  RangeAnalysisContext._buffers c !! a = Some b →
  (0 ≤ local_users_count b < 2 ^ 32)%Z →
  ∃ c' b', RangeAnalysisContext.ignore_input c i = Ok c'
      ∧ RangeAnalysisContext._buffers c' !! a = Some b'
      ∧ local_users_count b'
        = (if (local_users_count b =? 0)%Z then 2 ^ 32 - 1 else local_users_count b - 1)%Z
      ∧ data b' = data b ∧ size b' = size b ∧ capacity b' = capacity b
      ∧ constant_value b' = constant_value b
      ∧ is_constant b' = is_constant b ∧ is_binding b' = is_binding b
      ∧ (∀ a', a' ≠ a →
           RangeAnalysisContext._buffers c' !! a' = RangeAnalysisContext._buffers c !! a')
      ∧ RangeAnalysisContext._ranges c' = RangeAnalysisContext._ranges c.
Proof.
  intros Ha Hb Hrange.
  unfold RangeAnalysisContext.ignore_input, _ProcessContext.get_input_address, slice_at.
  rewrite Ha. simpl. rewrite Hb. simpl.
  eexists _, (Buffer_decrement_users b). split; [done|]. simpl.
  split; [apply list_lookup_insert_eq; by eapply lookup_lt_Some|].
  split.
  { destruct (Z.eqb_spec (local_users_count b) 0) as [->|Hne]; [done|].
    apply Z.mod_small. lia. }
  repeat (split; [done|]).
  split; [intros a' Hne; by apply list_lookup_insert_ne | done].
Qed.

Lemma analysis_footprint_refl inputs outputs rs (bs : list (Buffer float)) :
  Runtime.analysis_footprint inputs outputs rs bs rs bs.
Proof.
  repeat split; try done. intros a b Hb. by exists b.
Qed.

Lemma analysis_footprint_trans inputs outputs rs1 (bs1 : list (Buffer float))
    rs2 bs2 rs3 bs3 :
  Runtime.analysis_footprint inputs outputs rs1 bs1 rs2 bs2 →
  Runtime.analysis_footprint inputs outputs rs2 bs2 rs3 bs3 →
  Runtime.analysis_footprint inputs outputs rs1 bs1 rs3 bs3.
Proof.
  intros (Hr1 & Hb1 & Ho1 & Hi1 & Hs1) (Hr2 & Hb2 & Ho2 & Hi2 & Hs2).
  split; [congruence|]. split; [congruence|]. split; [|split].
  - intros a Ha. rewrite Ho2, Ho1; done.
  - intros a Ha. rewrite Hi2, Hi1; done.
  - intros a b Hb.
    destruct (Hs1 a b Hb) as (b2 & Hb2' & ? & ? & ? & ? & ? & ?).
    destruct (Hs2 a b2 Hb2') as (b3 & Hb3 & ? & ? & ? & ? & ? & ?).
    exists b3. repeat split; congruence.
Qed.

(** X11. A range routine works inside its declared addresses: whatever it
    calls, when it returns the address lists and parameters are as before,
    no interval outside its output addresses has changed, no buffer outside
    its input addresses has changed, and in the buffers only the count of
    users can differ. *)
Theorem range_routine_footprint (f : RangeAnalysisFunc float) c c' :
  run_range_analysis_func f c = Ok c' →
  RangeAnalysisContext.base c' = RangeAnalysisContext.base c
  ∧ Runtime.analysis_footprint
      (_ProcessContext._inputs (RangeAnalysisContext.base c))
      (_ProcessContext._outputs (RangeAnalysisContext.base c))
      (RangeAnalysisContext._ranges c) (RangeAnalysisContext._buffers c)
      (RangeAnalysisContext._ranges c') (RangeAnalysisContext._buffers c').
Proof.
  revert c. induction f as [|k IH|i k IH|i k IH|i r k IH|i k IH]; simpl; intros c Hrun.
  - injection Hrun as <-. split; [done | apply analysis_footprint_refl].
  - exact (IH _ c Hrun).
  - destruct (_ProcessContext.get_input_address _ i) as [a| |]; simpl in Hrun; try done.
    exact (IH _ c Hrun).
  - destruct (RangeAnalysisContext.get_input c i) as [r| |]; simpl in Hrun; try done.
    exact (IH _ c Hrun).
  - destruct (RangeAnalysisContext.set_output c i r) as [c1| |] eqn:Hset;
      simpl in Hrun; try done.
    destruct (IH c1 Hrun) as (Hbase & Hfoot).
    unfold RangeAnalysisContext.set_output, _ProcessContext.get_output_address,
      slice_at in Hset.
    destruct (_ProcessContext._outputs (RangeAnalysisContext.base c) !! i)
      as [a|] eqn:Ha; simpl in Hset; [|done].
    destruct (RangeAnalysisContext._ranges c !! a) as [r0|] eqn:Hr; simpl in Hset; [|done].
    injection Hset as <-. simpl in *. split; [done|].
    eapply analysis_footprint_trans; [|exact Hfoot].
    split; [by rewrite length_insert|]. split; [done|]. split; [|split; [done|]].
    + intros a' Ha'. apply list_lookup_insert_ne. intros <-.
      apply Ha'. by eapply list_elem_of_lookup_2.
    + intros a' b' Hb'. by exists b'.
  - destruct (RangeAnalysisContext.ignore_input c i) as [c1| |] eqn:Hign;
      simpl in Hrun; try done.
    destruct (IH c1 Hrun) as (Hbase & Hfoot).
    unfold RangeAnalysisContext.ignore_input, _ProcessContext.get_input_address,
      slice_at in Hign.
    destruct (_ProcessContext._inputs (RangeAnalysisContext.base c) !! i)
      as [a|] eqn:Ha; simpl in Hign; [|done].
    destruct (RangeAnalysisContext._buffers c !! a) as [b0|] eqn:Hb; simpl in Hign; [|done].
    injection Hign as <-. simpl in *. split; [done|].
    eapply analysis_footprint_trans; [|exact Hfoot].
    split; [done|]. split; [by rewrite length_insert|]. split; [done|]. split.
    + intros a' Ha'. apply list_lookup_insert_ne. intros <-.
      apply Ha'. by eapply list_elem_of_lookup_2.
    + intros a' b' Hb'. destruct (decide (a = a')) as [<-|Hneq].
      * exists (Buffer_decrement_users b0).
        rewrite list_lookup_insert_eq by (by eapply lookup_lt_Some).
        assert (b' = b0) as -> by congruence. done.
      * exists b'. by rewrite list_lookup_insert_ne.
Qed.

End ContextProperties.

(** X9 on a context whose output 0 and input 1 share address 2. *)
Lemma set_output_stores_one_interval_witness :
  let z := {| min := 0%Z; max := 0%Z |} in
  let c : RangeAnalysisContext.t Z :=
    {| RangeAnalysisContext.base :=
         {| _ProcessContext._inputs := [0; 2]; _ProcessContext._outputs := [2];
            _ProcessContext._params := [] |};
       RangeAnalysisContext._ranges := [z; z; z];
       RangeAnalysisContext._buffers := [] |} in
  ∃ c', RangeAnalysisContext.set_output c 0 {| min := 1%Z; max := 4%Z |} = Ok c'
      ∧ RangeAnalysisContext._ranges c' = [z; z; {| min := 1%Z; max := 4%Z |}]
      ∧ RangeAnalysisContext.get_input c' 1 = Ok {| min := 1%Z; max := 4%Z |}.
Proof.
  intros z c.
  destruct (set_output_stores_one_interval c 0 {| min := 1%Z; max := 4%Z |} 2)
    as (c' & Hset & _ & _ & _ & _ & _ & Hread).
  - reflexivity.
  - simpl. lia.
  - exists c'. split; [exact Hset|]. split.
    + vm_compute in Hset. injection Hset as <-. reflexivity.
    + apply Hread. reflexivity.
Defined.

(** X10 on a buffer that has no user left: the count wraps. *)
Lemma ignore_input_decrements_with_wrap_witness :
  let b := {| data := Some [1%Z]; size := 1; capacity := 1; constant_value := 0%Z;
              is_constant := false; is_binding := false; local_users_count := 0%Z |} in
  let c : RangeAnalysisContext.t Z :=
    {| RangeAnalysisContext.base :=
         {| _ProcessContext._inputs := [0]; _ProcessContext._outputs := [];
            _ProcessContext._params := [] |};
       RangeAnalysisContext._ranges := [];
       RangeAnalysisContext._buffers := [b] |} in
  ∃ c' b', RangeAnalysisContext.ignore_input c 0 = Ok c'
         ∧ RangeAnalysisContext._buffers c' !! 0 = Some b'
         ∧ local_users_count b' = 4294967295%Z.
Proof.
  intros b c.
  destruct (ignore_input_decrements_with_wrap c 0 0 b)
    as (c' & b' & Hign & Hb' & Hcount & _).
  - reflexivity.
  - reflexivity.
  - simpl. lia.
  - exists c', b'. split; [exact Hign|]. split; [exact Hb'|]. exact Hcount.
Defined.

(** X11 on a routine that reads, ignores an input and writes its output. *)
Lemma range_routine_footprint_witness :
  let z := {| min := 0%Z; max := 0%Z |} in
  let b := {| data := None; size := 1; capacity := 0; constant_value := 0%Z;
              is_constant := false; is_binding := false; local_users_count := 1%Z |} in
  let f := range_get_input 0 (λ r,
           range_ignore_input 0 (range_set_output 0 r range_return)) in
  let c : RangeAnalysisContext.t Z :=
    {| RangeAnalysisContext.base :=
         {| _ProcessContext._inputs := [0]; _ProcessContext._outputs := [1];
            _ProcessContext._params := [] |};
       RangeAnalysisContext._ranges := [z; z; z];
       RangeAnalysisContext._buffers := [b; b; b] |} in
  ∃ c', run_range_analysis_func f c = Ok c'
      ∧ RangeAnalysisContext._ranges c' !! 2 = Some z
      ∧ RangeAnalysisContext._buffers c' !! 1 = Some b.
Proof.
  intros z b f c. eexists. split; [reflexivity|].
  destruct (range_routine_footprint f c _ eq_refl) as (_ & _ & _ & Hr & Hb & _).
  split.
  - rewrite Hr; [reflexivity|]. simpl. by intros ?%list_elem_of_singleton.
  - rewrite Hb; [reflexivity|]. simpl. by intros ?%list_elem_of_singleton.
Defined.


(** ** The singleton: which sequences of calls run *)

Section SingletonProperties.
Import VoxelStringNames.

Lemma run_turns ks :
  (∀ g, run ks initial = Ok g →
     alternates Create ks = true
     ∧ ((g = initial ∧ Nat.even (length ks) = true)
        ∨ (∃ q, q ≠ 0%N
              ∧ g = {| g_singleton := q; instances := {[ q := constructor ]} |}
              ∧ Nat.odd (length ks) = true)))
  ∧ (∀ q g, q ≠ 0%N →
     run ks {| g_singleton := q; instances := {[ q := constructor ]} |} = Ok g →
     alternates Destroy ks = true
     ∧ ((g = initial ∧ Nat.odd (length ks) = true)
        ∨ (∃ q', q' ≠ 0%N
              ∧ g = {| g_singleton := q'; instances := {[ q' := constructor ]} |}
              ∧ Nat.even (length ks) = true))).
Proof.
  induction ks as [|k ks [IHnull IHset]].
  - split.
    + intros g [= <-]. split; [done|]. by left.
    + intros q g Hq [= <-]. split; [done|]. right. by exists q.
  - split.
    + intros g Hrun. destruct k; cbn [run call] in Hrun.
      * destruct (create_singleton_fresh initial) as (q & Hq & Hc); [done..|].
        rewrite Hc in Hrun. cbn [mbind Outcome_bind] in Hrun.
        destruct (IHset q g Hq Hrun) as [Halt Hend]. split; [done|].
        cbn [length]. rewrite Nat.even_succ, Nat.odd_succ.
        destruct Hend as [[-> ?]|(q' & ? & -> & ?)]; [by left|right; by exists q'].
      * by rewrite destroy_singleton_missing in Hrun.
    + intros q g Hq Hrun. destruct k; cbn [run call] in Hrun.
      * by rewrite create_singleton_exists in Hrun.
      * rewrite destroy_singleton_alive in Hrun by done.
        cbn [mbind Outcome_bind] in Hrun.
        destruct (IHnull g Hrun) as [Halt Hend]. split; [done|].
        cbn [length]. rewrite Nat.even_succ, Nat.odd_succ.
        destruct Hend as [[-> ?]|(q' & ? & -> & ?)]; [by left|right; by exists q'].
Qed.

Lemma turns_run ks :
  (alternates Create ks = true → ∃ g, run ks initial = Ok g)
  ∧ (∀ q, q ≠ 0%N → alternates Destroy ks = true →
     ∃ g, run ks {| g_singleton := q; instances := {[ q := constructor ]} |} = Ok g).
Proof.
  induction ks as [|k ks [IHnull IHset]].
  - split; [by eexists | intros; by eexists].
  - split.
    + intros Halt. destruct k; [|done]. cbn [alternates] in Halt.
      destruct (create_singleton_fresh initial) as (q & Hq & Hc); [done..|].
      destruct (IHset q Hq Halt) as [g Hg]. exists g.
      cbn [run call]. rewrite Hc. exact Hg.
    + intros q Hq Halt. destruct k; [done|]. cbn [alternates] in Halt.
      destruct (IHnull Halt) as [g Hg]. exists g.
      cbn [run call]. rewrite destroy_singleton_alive by done. exact Hg.
Qed.

(** X13. From the start, a sequence of calls of [create_singleton] and
    [destroy_singleton] runs without abort exactly when it takes turns,
    beginning with a creation: a second creation in a row aborts, and so
    does a destruction with nothing to destroy. After such a run the pointer
    is null and no instance is left when the number of calls is even;
    otherwise the pointer is set and the only instance is the one it points
    at, holding the three names its constructor interns. *)
Theorem singleton_calls_take_turns ks :
  ((∃ g, run ks initial = Ok g) ↔ alternates Create ks = true)
  ∧ ∀ g, run ks initial = Ok g →
      (g_singleton g = 0%N → g = initial ∧ Nat.even (length ks) = true)
      ∧ (g_singleton g ≠ 0%N →
           instances g = {[ g_singleton g := constructor ]}
           ∧ Nat.odd (length ks) = true).
Proof.
  split.
  - split.
    + intros [g Hrun]. by destruct (proj1 (run_turns ks) g Hrun).
    + apply turns_run.
  - intros g Hrun.
    destruct (proj1 (run_turns ks) g Hrun) as [_ [[-> Heven]|(q & Hq & -> & Hodd)]].
    + split; [done|]. by intros ?.
    + split; [by intros ?|]. done.
Qed.
End SingletonProperties.

(** X13 on create, destroy, create: the run returns, on an instance with
    the interned names; create, create does not. *)
Lemma singleton_calls_take_turns_witness :
  (∃ g, VoxelStringNames.run
          [VoxelStringNames.Create; VoxelStringNames.Destroy; VoxelStringNames.Create]
          VoxelStringNames.initial = Ok g
      ∧ VoxelStringNames.instances g
        = {[ VoxelStringNames.g_singleton g := VoxelStringNames.constructor ]})
  ∧ ¬ ∃ g, VoxelStringNames.run [VoxelStringNames.Create; VoxelStringNames.Create]
             VoxelStringNames.initial = Ok g.
Proof.
  split.
  - destruct (singleton_calls_take_turns
                [VoxelStringNames.Create; VoxelStringNames.Destroy;
                 VoxelStringNames.Create]) as [[_ Hruns] Hend].
    destruct (Hruns eq_refl) as [g Hg]. exists g. split; [exact Hg|].
    destruct (Hend g Hg) as [Hnull Hset].
    destruct (decide (VoxelStringNames.g_singleton g = 0%N)) as [H0|H0].
    + destruct (Hnull H0) as [_ Heven]. discriminate Heven.
    + apply Hset, H0.
  - intros Hex.
    destruct (singleton_calls_take_turns
                [VoxelStringNames.Create; VoxelStringNames.Create]) as [[Halt _] _].
    discriminate (Halt Hex).
Defined.
